(** * Video Tool for Editor.js: block state, upload completion, tunes and paste routing

  A shallow embedding of [src/index.js].  The tool is a JavaScript class
  whose instance owns one mutable record, [this._data]; its methods read
  JavaScript objects handed in by the editor and call three collaborators
  (the Ui, the Uploader and the editor API).  Objects live in a store and
  are passed by reference, methods are state transformers that may throw,
  and every call to a collaborator is appended to a log. *)

From Stdlib Require Import ZArith Ascii String.
From stdpp Require Import gmap strings list fin_maps pretty.

Set Default Proof Using "Type".
Open Scope string_scope.
Open Scope list_scope.

(** ** JavaScript values, objects and the object store *)

Module JS.

Definition loc := nat.

(** Primitive values and object references.  Numbers are the integral
    ones and strings those of code units below 256; objects are plain
    data records: what a JSON text or an object literal without methods
    denotes.  A record is kept as the map of its own properties; its
    prototype is [Object.prototype]. *)
Inductive value :=
| VUndefined
| VNull
| VBool (b : bool)
| VNum (n : Z)
| VStr (s : string)
| VRef (l : loc).

#[global] Instance value_eq_dec : EqDecision value.
Proof. solve_decision. Defined.

#[global] Instance value_inhabited : Inhabited value := populate VUndefined.

Abbreviation object := (gmap string value).
Abbreviation heap := (gmap loc (gmap string value)).

Inductive exn :=
| TypeError            (* a property read on undefined or null, an object
                          without a primitive value, a cyclic structure
                          given to JSON.stringify *)
| Rejected (reason : value).

Inductive result (A : Type) :=
| Ok (a : A)
| Throw (e : exn).
Arguments Ok {A} a.
Arguments Throw {A} e.

#[global] Instance result_ret : MRet result := @Ok.
#[global] Instance result_bind : MBind result := λ A B f m,
  match m with
  | Ok a => f a
  | Throw e => Throw e
  end.

(** ToBoolean *)
Definition truthy (v : value) : bool :=
  match v with
  | VUndefined | VNull => false
  | VBool b => b
  | VNum n => negb (n =? 0)%Z
  | VStr s => negb (String.eqb s "")
  | VRef _ => true
  end.

Definition nullish (v : value) : bool :=
  match v with
  | VUndefined | VNull => true
  | _ => false
  end.

(** [a === b] *)
Definition strict_eq (a b : value) : bool := bool_decide (a = b).

(** [typeof v !== 'undefined'] *)
Definition defined (v : value) : bool := negb (strict_eq v VUndefined).

(** The object a reference denotes. *)
Definition deref (h : heap) (l : loc) : gmap string value :=
  default ∅ (h !! l).

(** ToString, as [RegExp.prototype.test] applies it to its argument.
    Integers print in decimal (as they do below 10^21 in absolute value).
    An object is converted through its
    [toString] and then its [valueOf]: a record without a [toString] of
    its own prints through [Object.prototype.toString]; one that has a
    [toString] of its own has a value there that cannot be called, the
    inherited [valueOf] returns the record itself, and the conversion
    throws a TypeError. *)
Definition ToString (h : heap) (v : value) : result string :=
  match v with
  | VUndefined => Ok "undefined"
  | VNull => Ok "null"
  | VBool true => Ok "true"
  | VBool false => Ok "false"
  | VNum n => Ok (pretty n)
  | VStr s => Ok s
  | VRef l =>
      if bool_decide (is_Some (deref h l !! "toString"))
      then Throw TypeError else Ok "[object Object]"
  end.

(** The names every record inherits from [Object.prototype].  Under one of
    these names a read that finds no own property yields the inherited
    method, not [undefined], and an assignment to [__proto__] stores no
    own property. *)
Definition inherited_names : list string :=
  ["constructor"; "hasOwnProperty"; "isPrototypeOf"; "propertyIsEnumerable";
   "toLocaleString"; "toString"; "valueOf"; "__proto__"; "__defineGetter__";
   "__defineSetter__"; "__lookupGetter__"; "__lookupSetter__"].

(** [o[k]] for a value that is not undefined or null and a name [k] that
    is not one of [inherited_names]: an own property of a record,
    [undefined] when it is missing or [o] is a primitive (the tool reads
    no name that the wrapper of a primitive defines).  For an inherited
    name this is the own property alone. *)
Definition member (h : heap) (o : value) (k : string) : value :=
  match o with
  | VRef l => default VUndefined (deref h l !! k)
  | _ => VUndefined
  end.

(** [o.k]: reading a property of undefined or null throws. *)
Definition get_prop (h : heap) (o : value) (k : string) : result value :=
  if nullish o then Throw TypeError else Ok (member h o k).

(** [l.k = v], for a name [k] other than [__proto__]: the own property is
    created or overwritten. *)
Definition set_prop (h : heap) (l : loc) (k : string) (v : value) : heap :=
  <[l := <[k := v]> (deref h l)]> h.

(** Whether [JSON.stringify(v)] returns.  It walks the value depth first,
    keeps the stack of the objects it is inside of, and throws a TypeError
    when it meets one of them again: on a cyclic structure.  Properties
    holding [undefined] are skipped and nothing else can fail on records.
    The walk is cut off at depth [fuel]; a stack of distinct objects is
    never longer than the store is large, so [serialisable] is never cut
    off (lemma [serialise_fuel]). *)
Fixpoint serialise (fuel : nat) (h : heap) (stack : list loc) (v : value)
  : bool :=
  match v with
  | VRef l =>
      negb (bool_decide (l ∈ stack)) &&
      match fuel with
      | 0 => false
      | S fuel' =>
          forallb (serialise fuel' h (l :: stack))
                  ((map_to_list (deref h l)).*2)
      end
  | _ => true
  end.

Definition serialisable (h : heap) (v : value) : bool :=
  serialise (S (size h)) h [] v.

(** An object literal: the new object gets a location not yet in use. *)
Definition alloc (h : heap) (o : gmap string value) : loc * heap :=
  let l := fresh (dom h) in (l, <[l := o]> h).

End JS.
Export JS.

(** ** Regular expressions, as far as the tool's two literals need them *)

Module RegExp.

(** A JavaScript string is a sequence of UTF-16 code units; patterns
    match code unit by code unit (neither literal has the [u] flag).  The
    literals spell their characters in ASCII: [code c] is the code unit of
    such a character and [units s] are the code units of a string whose
    characters all lie below 256, as the strings of [VStr] do. *)
Definition code (c : ascii) : N := N_of_ascii c.
Definition units (s : string) : list N := code <$> list_ascii_of_string s.

(** What one pattern character or class admits. *)
Inductive charset :=
| Single (c : ascii)
| Range (lo hi : ascii)
| NonSpace
| AnyChar
| Union (a b : charset)
| NoCase (a : charset).

(** White space and line terminators, the code units [\s] admits: TAB,
    LF, VT, FF, CR, SP, NBSP, U+1680, U+2000 to U+200A, U+2028, U+2029,
    U+202F, U+205F, U+3000 and U+FEFF. *)
Definition is_space (x : N) : bool :=
  bool_decide (x ∈ [9; 10; 11; 12; 13; 32; 160; 5760; 8232; 8233; 8239;
                    8287; 12288; 65279]%N)
  || (8192 <=? x)%N && (x <=? 8202)%N.

Definition is_upper (x : N) : bool := (65 <=? x)%N && (x <=? 90)%N.
Definition is_lower (x : N) : bool := (97 <=? x)%N && (x <=? 122)%N.

(** The other case of an ASCII letter; every other code unit is left as
    it is. *)
Definition to_upper (x : N) : N := if is_lower x then (x - 32)%N else x.
Definition to_lower (x : N) : N := if is_upper x then (x + 32)%N else x.

(** Under the [i] flag a code unit is admitted when some member of the
    class has the same canonical form.  Without the [u] flag the canonical
    form is the upper-case form, except that a code unit from 128 on is
    never taken to one below 128.  Both literals of the tool spell their
    letters in ASCII, so a member with the same canonical form is the
    upper-case or the lower-case ASCII form of the code unit itself; and
    no code unit that is not white space has white space as its canonical
    form. *)
Fixpoint in_set (cs : charset) (x : N) : bool :=
  match cs with
  | Single c => (code c =? x)%N
  | Range lo hi => (code lo <=? x)%N && (x <=? code hi)%N
  | NonSpace => negb (is_space x)
  | AnyChar => true
  | Union a b => in_set a x || in_set b x
  | NoCase a => in_set a (to_lower x) || in_set a (to_upper x)
  end.

Inductive regex :=
| Void
| Eps
| Sym (cs : charset)
| Seq (r1 r2 : regex)
| Alt (r1 r2 : regex)
| Star (r : regex).

(** One character, [r+], [r?], a literal run of characters and the
    concatenation of several patterns *)
Definition Chr (c : ascii) : regex := Sym (Single c).
Definition Plus (r : regex) : regex := Seq r (Star r).
Definition Opt (r : regex) : regex := Alt r Eps.
Fixpoint Lit (s : string) : regex :=
  match s with
  | EmptyString => Eps
  | String c s' => Seq (Chr c) (Lit s')
  end.
Definition sequence (rs : list regex) : regex := foldr Seq Eps rs.

(** The [i] flag applies to every character and class of the pattern. *)
Fixpoint ignore_case (r : regex) : regex :=
  match r with
  | Void => Void
  | Eps => Eps
  | Sym cs => Sym (NoCase cs)
  | Seq r1 r2 => Seq (ignore_case r1) (ignore_case r2)
  | Alt r1 r2 => Alt (ignore_case r1) (ignore_case r2)
  | Star r1 => Star (ignore_case r1)
  end.

(** The words a pattern matches from its first to its last code unit. *)
Fixpoint lang (r : regex) (w : list N) : Prop :=
  match r with
  | Void => False
  | Eps => w = []
  | Sym cs => ∃ x, w = [x] ∧ in_set cs x = true
  | Seq r1 r2 => ∃ u v, w = u ++ v ∧ lang r1 u ∧ lang r2 v
  | Alt r1 r2 => lang r1 w ∨ lang r2 w
  | Star r1 => ∃ ws, w = concat ws ∧ Forall (lang r1) ws
  end.

(** Matching by derivatives. *)
Fixpoint nullable (r : regex) : bool :=
  match r with
  | Void => false
  | Eps => true
  | Sym _ => false
  | Seq r1 r2 => nullable r1 && nullable r2
  | Alt r1 r2 => nullable r1 || nullable r2
  | Star _ => true
  end.

Fixpoint deriv (x : N) (r : regex) : regex :=
  match r with
  | Void => Void
  | Eps => Void
  | Sym cs => if in_set cs x then Eps else Void
  | Seq r1 r2 =>
      if nullable r1 then Alt (Seq (deriv x r1) r2) (deriv x r2)
      else Seq (deriv x r1) r2
  | Alt r1 r2 => Alt (deriv x r1) (deriv x r2)
  | Star r1 => Seq (deriv x r1) (Star r1)
  end.

Fixpoint accepts (r : regex) (w : list N) : bool :=
  match w with
  | [] => nullable r
  | x :: w' => accepts (deriv x r) w'
  end.

(** A regular-expression literal [/^pattern$/i]: the pattern between the
    anchors, whether each anchor is present, and the [i] flag. *)
Record t := {
  caret : bool;
  pattern : regex;
  dollar : bool;
  ignoreCase : bool
}.

Definition effective (rx : t) : regex :=
  if ignoreCase rx then ignore_case (pattern rx) else pattern rx.

(** [test] looks for a match anywhere in the string: a missing anchor lets
    any code units precede or follow the match. *)
Definition search (rx : t) : regex :=
  Seq (if caret rx then Eps else Star (Sym AnyChar))
      (Seq (effective rx) (if dollar rx then Eps else Star (Sym AnyChar))).

(** [rx.test(w)] on the code units of a string, and on a string whose
    characters lie below 256 *)
Definition matches (rx : t) (w : list N) : bool := accepts (search rx) w.

Definition test (rx : t) (s : string) : bool := matches rx (units s).

End RegExp.

(** ** The tool *)

Module VideoTool.

(** A block tune: one entry of [VideoTool.tunes] or of [config.actions].
    Icons come from an icon package and are named by their import; a
    user-defined [action] callback is named by an identifier. *)
Module Tune.
Record t := {
  name : string;
  icon : string;
  title : string;
  toggle : bool;
  action : option nat
}.
End Tune.

(** [static get isReadOnlySupported()] *)
Definition isReadOnlySupported : bool := true.

(** [static get tunes()] *)
Definition tunes : list Tune.t := [
  {| Tune.name := "withBorder"; Tune.icon := "IconAddBorder";
     Tune.title := "With border"; Tune.toggle := true; Tune.action := None |};
  {| Tune.name := "stretched"; Tune.icon := "IconStretch";
     Tune.title := "Stretch image"; Tune.toggle := true; Tune.action := None |};
  {| Tune.name := "withBackground"; Tune.icon := "IconAddBackground";
     Tune.title := "With background"; Tune.toggle := true; Tune.action := None |}
].

(** [static get pasteConfig()].  Its URL pattern reads, piece by piece:
    [https?:\/\/], [\S+], [\.], [(avi|wmv|mov|webm|mpeg4|ts|mpg|rm|rmvb|mkv|mp4)],
    an optional group of [\?] and [[a-z0-9=]] repeated, and [$]; flag [i]. *)
Definition extensions : list string :=
  ["avi"; "wmv"; "mov"; "webm"; "mpeg4"; "ts"; "mpg"; "rm"; "rmvb"; "mkv"; "mp4"].

Definition one_of (words : list string) : RegExp.regex :=
  foldr (λ w r, RegExp.Alt (RegExp.Lit w) r) RegExp.Void words.

Definition query_chars : RegExp.charset :=
  RegExp.Union (RegExp.Range "a" "z")
    (RegExp.Union (RegExp.Range "0" "9") (RegExp.Single "=")).

Definition video_pattern : RegExp.t := {|
  RegExp.caret := false;
  RegExp.pattern := RegExp.sequence [
    RegExp.Lit "http";
    RegExp.Opt (RegExp.Chr "s");
    RegExp.Lit "://";
    RegExp.Plus (RegExp.Sym RegExp.NonSpace);
    RegExp.Chr ".";
    one_of extensions;
    RegExp.Opt (RegExp.sequence [RegExp.Chr "?";
                                 RegExp.Star (RegExp.Sym query_chars)])
  ];
  RegExp.dollar := true;
  RegExp.ignoreCase := true
|}.

Module PasteConfig.
Record t := {
  tags : list (string * list string);
  patterns : list (string * RegExp.t);
  files_mimeTypes : list string
}.
End PasteConfig.

Definition pasteConfig : PasteConfig.t := {|
  PasteConfig.tags := [("video", ["src"])];
  PasteConfig.patterns := [("video", video_pattern)];
  PasteConfig.files_mimeTypes := ["video/*"]
|}.

(** [/^blob:/], the test [onPaste] applies to a pasted video's source *)
Definition blob_pattern : RegExp.t := {|
  RegExp.caret := true;
  RegExp.pattern := RegExp.Lit "blob:";
  RegExp.dollar := false;
  RegExp.ignoreCase := false
|}.

(** *** Collaborators *)

(** The editor API: the translation function behind [api.i18n.t]. *)
Record Api := { i18n_t : string → string }.

(** The Block API: what assigning [block.stretched] does, [None] when the
    assignment goes through and [Some err] when it throws [err]. *)
Record BlockAPI := { stretched_set : value → option value }.

(** The Ui: the content of its live caption node. *)
Record Ui := { nodes_caption_innerHTML : string }.

(** The text [uploadingFailed] logs; [JSON_stringify v] is the text
    [JSON.stringify] returns for [v]. *)
Inductive message :=
| Given (v : value)
| Concat (s : string) (m : message)
| JSON_stringify (v : value).

(** Calls that leave the tool. *)
Inductive call :=
| ui_render (data : value)
| ui_fillCaption (text : value)
| ui_fillVideo (url : value)
| ui_applyTune (tuneName : string) (status : value)
| ui_showPreloader (src : value)
| ui_hidePreloader
| ui_fileButton_click
| uploader_uploadByFile (file : value)
| uploader_uploadByUrl (url : value)
| uploader_uploadSelectedFile
| notifier_show (text style : string)
| console_log (label : string) (errorText : message)
| console_error (err : value)
| window_fetch (resource : value)
| block_stretched (status : value)
| tune_action (callback : nat) (tuneName : string).

(** Promise reactions waiting in the microtask queue. *)
Inductive job :=
| then_stretched (status : value)
| catch_error (err : value).

(** A tool instance, with the object store it lives in, the log of its
    calls and the microtask queue.  Of [this.config] only [actions] is read
    after construction; the other entries go to the Ui and the Uploader. *)
Record tool := {
  api : Api;
  readOnly : bool;
  block : BlockAPI;
  config_actions : list Tune.t;
  ui : Ui;
  _data : loc;
  store : gmap loc (gmap string value);
  calls : list call;
  microtasks : list job
}.

Definition with_store (h : gmap loc (gmap string value)) (self : tool) : tool :=
  {| api := api self; readOnly := readOnly self; block := block self;
     config_actions := config_actions self; ui := ui self; _data := _data self;
     store := h; calls := calls self; microtasks := microtasks self |}.

Definition with_calls (cs : list call) (self : tool) : tool :=
  {| api := api self; readOnly := readOnly self; block := block self;
     config_actions := config_actions self; ui := ui self; _data := _data self;
     store := store self; calls := cs; microtasks := microtasks self |}.

Definition with_microtasks (q : list job) (self : tool) : tool :=
  {| api := api self; readOnly := readOnly self; block := block self;
     config_actions := config_actions self; ui := ui self; _data := _data self;
     store := store self; calls := calls self; microtasks := q |}.

(** *** Methods are state transformers that may throw *)

Definition M (A : Type) : Type := tool → result (A * tool).

#[global] Instance M_ret : MRet M := λ A a self, Ok (a, self).
#[global] Instance M_bind : MBind M := λ A B f m self,
  match m self with
  | Ok (a, self') => f a self'
  | Throw e => Throw e
  end.

Definition this : M tool := λ self, Ok (self, self).
Definition throw {A} (e : exn) : M A := λ _, Throw e.

(** [o.k] *)
Definition read (o : value) (k : string) : M value := λ self,
  match get_prop (store self) o k with
  | Ok v => Ok (v, self)
  | Throw e => Throw e
  end.

(** [l.k = v] *)
Definition write (l : loc) (k : string) (v : value) : M unit := λ self,
  Ok ((), with_store (set_prop (store self) l k v) self).

(** [{}] *)
Definition new_object : M value := λ self,
  let '(l, h) := alloc (store self) ∅ in Ok (VRef l, with_store h self).

Definition perform (c : call) : M unit := λ self,
  Ok ((), with_calls (calls self ++ [c]) self).

(** [JSON.stringify(v)] *)
Definition stringify (v : value) : M message := λ self,
  if serialisable (store self) v then Ok (JSON_stringify v, self)
  else Throw TypeError.

(** The conversion of [v] to a string *)
Definition to_string (v : value) : M string := λ self,
  match ToString (store self) v with
  | Ok text => Ok (text, self)
  | Throw e => Throw e
  end.

Definition defer (j : job) : M unit := λ self,
  Ok ((), with_microtasks (microtasks self ++ [j]) self).

Fixpoint forEach {A} (l : list A) (f : A → M unit) : M unit :=
  match l with
  | [] => mret ()
  | x :: l' => f x;; forEach l' f
  end.

(** [validate(savedData)] *)
Definition validate (h : gmap loc (gmap string value)) (savedData : value)
  : result value :=
  file ← get_prop h savedData "file";
  if truthy file then
    file' ← get_prop h savedData "file";
    get_prop h file' "url"
  else mret file.

(** [get data()] *)
Definition get_data : M value :=
  self ← this; mret (VRef (_data self)).

(** [setTune(tuneName, value)] *)
Definition setTune (tuneName : string) (status : value) : M unit :=
  self ← this;
  write (_data self) tuneName status;;
  perform (ui_applyTune tuneName status);;
  if String.eqb tuneName "stretched" then defer (then_stretched status)
  else mret ().

(** [tuneToggled(tuneName)] *)
Definition tuneToggled (tuneName : string) : M unit :=
  self ← this;
  current ← read (VRef (_data self)) tuneName;
  setTune tuneName (VBool (negb (truthy current))).

(** [set video(file)] *)
Definition set_video (file : value) : M unit :=
  self ← this;
  stored ← (if truthy file then mret file else new_object);
  write (_data self) "file" stored;;
  if truthy file then
    url ← read file "url";
    if truthy url then
      url' ← read file "url";
      perform (ui_fillVideo url')
    else mret ()
  else mret ().

(** [set data(data)]; [set_data_tune] is the callback it runs on every
    entry of [VideoTool.tunes]. *)
Definition set_data_tune (data : value) (tune : Tune.t) : M unit :=
  given ← read data (Tune.name tune);
  let status :=
    if defined given
    then strict_eq given (VBool true) || strict_eq given (VStr "true")
    else false in
  setTune (Tune.name tune) (VBool status).

Definition set_data (data : value) : M unit :=
  file ← read data "file";
  set_video file;;
  self ← this;
  caption ← read data "caption";
  write (_data self) "caption" (if truthy caption then caption else VStr "");;
  shown ← read (VRef (_data self)) "caption";
  perform (ui_fillCaption shown);;
  forEach tunes (set_data_tune data).

(** [uploadingFailed(errorText)] *)
Definition uploadingFailed (errorText : message) : M unit :=
  self ← this;
  perform (console_log "Video Tool: uploading failed because of" errorText);;
  perform (notifier_show
             (i18n_t (api self) "Couldn’t upload video. Please try another.")
             "error");;
  perform ui_hidePreloader.

(** [onUpload(response)] *)
Definition onUpload (response : value) : M unit :=
  success ← read response "success";
  ok ← (if truthy success then read response "file" else mret success);
  if truthy ok then
    file ← read response "file";
    set_video file
  else
    text ← stringify response;
    uploadingFailed (Concat "incorrect response: " text).

(** [save()] *)
Definition save : M value :=
  self ← this;
  write (_data self) "caption" (VStr (nodes_caption_innerHTML (ui self)));;
  get_data.

(** [render()]; the node the Ui returns is not represented. *)
Definition render : M unit :=
  data ← get_data;
  perform (ui_render data).

(** [appendCallback()] *)
Definition appendCallback : M unit := perform ui_fileButton_click.

(** [uploadFile(file)]; the preview callback it hands over is [onPreview]. *)
Definition uploadFile (file : value) : M unit :=
  perform (uploader_uploadByFile file).

Definition onPreview (src : value) : M unit :=
  perform (ui_showPreloader src).

(** The [onSelectFile] callback the constructor gives to the Ui; its
    preview callback is [onPreview] too. *)
Definition onSelectFile : M unit := perform uploader_uploadSelectedFile.

(** [uploadUrl(url)] *)
Definition uploadUrl (url : value) : M unit :=
  perform (ui_showPreloader url);;
  perform (uploader_uploadByUrl url).

(** [renderSettings()] *)
Module Setting.
Record t := {
  icon : string;
  label : string;
  name : string;
  toggle : bool;
  isActive : value;
  onActivate : M unit
}.
End Setting.

Definition renderSettings : M (list Setting.t) :=
  self ← this;
  data ← get_data;
  let tunes := tunes ++ config_actions self in
  active ← mapM (λ tune, read data (Tune.name tune)) tunes;
  mret (zip_with (λ tune isActive,
    {| Setting.icon := Tune.icon tune;
       Setting.label := i18n_t (api self) (Tune.title tune);
       Setting.name := Tune.name tune;
       Setting.toggle := Tune.toggle tune;
       Setting.isActive := isActive;
       Setting.onActivate :=
         match Tune.action tune with
         | Some callback => perform (tune_action callback (Tune.name tune))
         | None => tuneToggled (Tune.name tune)
         end |}) tunes active).

(** [onPaste(event)], an async function: [Throw] is the rejection of the
    promise it returns.  [blob_of src] is what the awaited [fetch(src)]
    and [response.blob()] deliver, [None] when either rejects. *)
Definition onPaste (blob_of : value → option value) (event : value) : M unit :=
  type ← read event "type";
  if strict_eq type (VStr "tag") then
    detail ← read event "detail";
    video ← read detail "data";
    src ← read video "src";
    text ← to_string src;
    if RegExp.test blob_pattern text then
      perform (window_fetch src);;
      match blob_of src with
      | Some file => uploadFile file
      | None => throw (Rejected src)
      end
    else
      src' ← read video "src";
      uploadUrl src'
  else if strict_eq type (VStr "pattern") then
    detail ← read event "detail";
    url ← read detail "data";
    uploadUrl url
  else if strict_eq type (VStr "file") then
    detail ← read event "detail";
    file ← read detail "file";
    uploadFile file
  else mret ().

(** The microtask queue: one step runs the oldest reaction. *)
Definition run_job (j : job) : M unit :=
  match j with
  | then_stretched status =>
      self ← this;
      perform (block_stretched status);;
      match stretched_set (block self) status with
      | None => mret ()
      | Some err => defer (catch_error err)
      end
  | catch_error err => perform (console_error err)
  end.

Definition microtask : M unit := λ self,
  match microtasks self with
  | [] => Ok ((), self)
  | j :: q => run_job j (with_microtasks q self)
  end.

(** [constructor({ data, config, api, readOnly, block })], run in the store
    [h], from the point where the configuration has been read and the
    Uploader and the Ui have been built: [actions] is [config.actions]
    when the configuration has it, and [ui] is the Ui the constructor
    built.  What is left is the new record and the setter of the block
    data.  (Reading a configuration that is undefined or null, and the
    constructors of the Uploader and the Ui, can throw before that point;
    then no tool comes into being.) *)
Definition constructor (data : value) (actions : option (list Tune.t))
    (api : Api) (readOnly : bool) (block : BlockAPI) (ui : Ui)
    (h : gmap loc (gmap string value)) : result tool :=
  let '(d, h') := alloc h ∅ in
  let self := {| api := api; readOnly := readOnly; block := block;
                 config_actions := default [] actions; ui := ui; _data := d;
                 store := h'; calls := []; microtasks := [] |} in
  match set_data data self with
  | Ok (_, self') => Ok self'
  | Throw e => Throw e
  end.

End VideoTool.

(** ** Vocabulary of the properties *)

Import VideoTool.

Arguments set_prop : simpl never.
Arguments member : simpl never.
Arguments alloc : simpl never.
Arguments RegExp.test : simpl never.
Arguments RegExp.matches : simpl never.

(** [this._data[k]] *)
Definition data_field (self : tool) (k : string) : value :=
  member (store self) (VRef (_data self)) k.

(** The record of the instance exists in the store. *)
Definition allocated (self : tool) : Prop :=
  is_Some (store self !! _data self).

(** A value is one of the two booleans. *)
Definition is_boolean (v : value) : Prop := ∃ b, v = VBool b.

(** The boolean a saved tune value stands for. *)
Definition coerce (v : value) : bool :=
  bool_decide (v = VBool true ∨ v = VStr "true").

(** Names of the registry and of the configured actions. *)
Definition registry_names : list string := Tune.name <$> tunes.
Definition action_names (actions : option (list Tune.t)) : list string :=
  Tune.name <$> default [] actions.

(** Counting calls of one kind in a log. *)
Definition is_notification (c : call) : bool :=
  match c with notifier_show _ _ => true | _ => false end.
Definition is_hidePreloader (c : call) : bool :=
  match c with ui_hidePreloader => true | _ => false end.
Definition is_propagation (status : value) (c : call) : bool :=
  match c with
  | block_stretched v => bool_decide (v = status)
  | _ => false
  end.
Fixpoint count (p : call → bool) (log : list call) : nat :=
  match log with
  | [] => 0
  | c :: log' => (if p c then 1 else 0) + count p log'
  end.

(** An object is the empty mapping or has a non-empty string under [url]. *)
Definition empty_or_has_url (o : gmap string value) : Prop :=
  o = ∅ ∨ ∃ s, o !! "url" = Some (VStr s) ∧ s ≠ "".

(** The file field of the record refers to such an object. *)
Definition file_ok (self : tool) : Prop :=
  ∃ l o, data_field self "file" = VRef l ∧ store self !! l = Some o ∧
         empty_or_has_url o.

(** File data as the editor and the Uploader document it: nothing, or an
    object of the store that is empty or has a non-empty string [url]. *)
Definition payload_ok (h : gmap loc (gmap string value)) (v : value) : Prop :=
  truthy v = false ∨
  ∃ l o, v = VRef l ∧ h !! l = Some o ∧ empty_or_has_url o.

(** What can happen to a constructed tool: the editor or the Uploader
    builds an object, the Uploader reports a response or an error, file
    data is set, the editor saves, a tune is toggled from the settings
    menu, a pending promise reaction runs. *)
Inductive op :=
| host_object (o : gmap string value)
| host_onUpload (response : value)
| host_set_video (file : value)
| host_onError (error : value)
| host_save
| host_tuneToggled (tuneName : string)
| host_microtask.

Definition step (o : op) : M unit :=
  match o with
  | host_object obj => λ self,
      Ok ((), with_store (alloc (store self) obj).2 self)
  | host_onUpload response => onUpload response
  | host_set_video file => set_video file
  | host_onError error => uploadingFailed (Given error)
  | host_save => save;; mret ()
  | host_tuneToggled tuneName => tuneToggled tuneName
  | host_microtask => microtask
  end.

(** An operation that throws does so before it has changed anything: on
    its first property read, or when a response cannot be serialised. *)
Definition exec (o : op) (self : tool) : tool :=
  match step o self with
  | Ok (_, self') => self'
  | Throw _ => self
  end.

Definition run (ops : list op) (self : tool) : tool := foldl (flip exec) self ops.

(** The file data an operation hands over is as documented; a toggled tune
    is not called [file] or [url]. *)
Definition op_ok (o : op) (self : tool) : Prop :=
  match o with
  | host_onUpload response =>
      truthy (member (store self) response "success") = true →
      payload_ok (store self) (member (store self) response "file")
  | host_set_video file => payload_ok (store self) file
  | host_tuneToggled tuneName => tuneName ≠ "file" ∧ tuneName ≠ "url"
  | _ => True
  end.

Fixpoint all_ok (ops : list op) (self : tool) : Prop :=
  match ops with
  | [] => True
  | o :: ops' => op_ok o self ∧ all_ok ops' (exec o self)
  end.

(** Running the microtask queue for a number of steps. *)
Definition drain (n : nat) (self : tool) : tool :=
  Nat.iter n (exec host_microtask) self.

(** Sample collaborators, records and responses. *)
Definition sample_api : Api := {| i18n_t := λ key, key |}.
Definition accepting_block : BlockAPI := {| stretched_set := λ _, None |}.
Definition refusing_block : BlockAPI :=
  {| stretched_set := λ _, Some (VStr "block is not ready") |}.
Definition sample_ui : Ui := {| nodes_caption_innerHTML := "A <b>clip</b>" |}.

(** A store with three saved records, [{file: {url: "http://x/v.mp4"}}]
    at 1, [{}] at 3 and [{file: {}}] at 4; two responses,
    [{success: 1, file: {url: "http://x/v.mp4"}}] at 7 and [{success: 0}]
    at 8; a pasted video tag with a blob source at 9; and the record of
    [sample_tool] at 6. *)
Definition sample_store : gmap loc (gmap string value) :=
  <[1 := {["file" := VRef 2]}]>
  (<[2 := {["url" := VStr "http://x/v.mp4"]}]>
  (<[3 := ∅]>
  (<[4 := {["file" := VRef 5]}]>
  (<[5 := ∅]>
  (<[6 := <["file" := VRef 5]> {["caption" := VStr ""]}]>
  (<[7 := <["success" := VNum 1]> {["file" := VRef 2]}]>
  (<[8 := {["success" := VNum 0]}]>
  (<[9 := <["type" := VStr "tag"]> {["detail" := VRef 10]}]>
  (<[10 := {["data" := VRef 11]}]>
  (<[11 := {["src" := VStr "blob:http://x/1"]}]> ∅)))))))))).

Definition sample_tool : tool := {|
  api := sample_api; readOnly := false; block := refusing_block;
  config_actions := []; ui := sample_ui; _data := 6;
  store := sample_store; calls := []; microtasks := []
|}.

(** Lower-casing of the ASCII letters of a sequence of code units: A to Z
    become a to z and every other code unit stays (this is not
    [toLowerCase], which also changes letters outside ASCII). *)
Definition ascii_lower (w : list N) : list N := RegExp.to_lower <$> w.

Fixpoint all_chars (p : ascii → bool) (s : string) : bool :=
  match s with
  | EmptyString => true
  | String c s' => p c && all_chars p s'
  end.

Definition non_space (x : N) : bool := negb (RegExp.is_space x).
Definition is_digit (x : N) : bool := (48 <=? x)%N && (x <=? 57)%N.
Definition not_upper (c : ascii) : bool :=
  negb (RegExp.is_upper (RegExp.code c)).

(** Code units of a query string: as the pattern takes them under its
    [i] flag, and as the specification words them (lower-case only). *)
Definition query_char_any_case (x : N) : bool :=
  RegExp.is_lower x || RegExp.is_upper x || is_digit x || (x =? 61)%N.
Definition query_char_lower_case (x : N) : bool :=
  RegExp.is_lower x || is_digit x || (x =? 61)%N.

(** The strings the URL pattern matches, as sequences of code units:
    anything, then [http://] or [https://] with its letters in either
    case, one or more code units that are not white space, a dot, an
    extension with its letters in either case, and possibly a question
    mark followed by ASCII letters, digits and equals signs. *)
Definition matched_shape (w : list N) : Prop :=
  ∃ before scheme rest ext query,
    w = before ++ scheme ++ RegExp.units "://" ++ rest ++ RegExp.units "."
          ++ ext ++ query ∧
    (ascii_lower scheme = RegExp.units "http" ∨
     ascii_lower scheme = RegExp.units "https") ∧
    rest ≠ [] ∧ Forall (λ x, non_space x = true) rest ∧
    (∃ word, word ∈ extensions ∧ ascii_lower ext = RegExp.units word) ∧
    (query = [] ∨
     ∃ q, query = RegExp.code "?" :: q ∧
          Forall (λ x, query_char_any_case x = true) q).

(** The strings the specification describes: an http or https URL ending in an
    extension in any letter case, possibly followed by a question mark and
    lower-case letters, digits and equals signs. *)
Definition stated_shape (w : list N) : Prop :=
  ∃ scheme rest ext query,
    w = scheme ++ RegExp.units "://" ++ rest ++ RegExp.units "." ++ ext
          ++ query ∧
    (scheme = RegExp.units "http" ∨ scheme = RegExp.units "https") ∧
    rest ≠ [] ∧ Forall (λ x, non_space x = true) rest ∧
    (∃ word, word ∈ extensions ∧ ascii_lower ext = RegExp.units word) ∧
    (query = [] ∨
     ∃ q, query = RegExp.code "?" :: q ∧
          Forall (λ x, query_char_lower_case x = true) q).

(** A pattern for the stated shape, to decide it on a given string. *)
Definition stated_pattern : RegExp.t := {|
  RegExp.caret := true;
  RegExp.pattern := RegExp.sequence [
    RegExp.Lit "http";
    RegExp.Opt (RegExp.Chr "s");
    RegExp.Lit "://";
    RegExp.Plus (RegExp.Sym RegExp.NonSpace);
    RegExp.Chr ".";
    RegExp.ignore_case (one_of extensions);
    RegExp.Opt (RegExp.sequence [RegExp.Chr "?";
                                 RegExp.Star (RegExp.Sym query_chars)])
  ];
  RegExp.dollar := true;
  RegExp.ignoreCase := false
|}.

(** Checking a property of code units on the 128 ASCII ones. *)
Definition all_ascii (p : N → bool) : bool :=
  forallb (λ n, p (N.of_nat n)) (seq 0 128).

(** The specification's invariant on tunes: every name of the registry
    and of the configured actions holds a boolean in the record. *)
Definition every_tune_boolean (actions : option (list Tune.t)) (self : tool)
  : Prop :=
  ∀ n, n ∈ registry_names ++ action_names actions →
       is_boolean (data_field self n).

(** A configured action without a callback of its own. *)
Definition mirrored_tune : Tune.t :=
  {| Tune.name := "mirrored"; Tune.icon := "<svg/>"; Tune.title := "Mirror";
     Tune.toggle := true; Tune.action := None |}.

(** What construction establishes and every operation keeps: the record
    exists, its file field refers to another object of the store that is
    empty or has a non-empty string [url], and the record itself has no
    string under [url]. *)
Definition file_inv (h : gmap loc (gmap string value)) (d : loc) : Prop :=
  is_Some (h !! d) ∧
  (∃ l o, member h (VRef d) "file" = VRef l ∧ l ≠ d ∧ h !! l = Some o ∧
          empty_or_has_url o) ∧
  (∀ s, member h (VRef d) "url" ≠ VStr s).

(** A response that refers back to itself, [r = {success: 0}; r.self = r],
    at 12, next to the sample records. *)
Definition cyclic_store : gmap loc (gmap string value) :=
  <[12 := <["success" := VNum 0]> {["self" := VRef 12]}]> sample_store.

(** A response whose file data lacks the url:
    [{success: 1, file: {name: "clip.mp4"}}] at 2, next to the empty
    record at 1. *)
Definition store_with_nameless_file : gmap loc (gmap string value) :=
  <[1 := ∅]>
  (<[2 := <["success" := VNum 1]> {["file" := VRef 3]}]>
  (<[3 := {["name" := VStr "clip.mp4"]}]> ∅)).

(** [this._data.file.url], the value [validate] looks at after a save. *)
Definition file_url (self : tool) : value :=
  member (store self) (data_field self "file") "url".

(** Operations that set no file: anything but a file setting and a
    response whose success and file are both truthy; a toggled tune is not
    called [file] or [url]. *)
Definition sets_no_file (o : op) (self : tool) : Prop :=
  match o with
  | host_set_video _ => False
  | host_onUpload response =>
      truthy (member (store self) response "success") &&
      truthy (member (store self) response "file") = false
  | host_tuneToggled tuneName => tuneName ≠ "file" ∧ tuneName ≠ "url"
  | _ => True
  end.

Fixpoint none_sets_file (ops : list op) (self : tool) : Prop :=
  match ops with
  | [] => True
  | o :: ops' => sets_no_file o self ∧ none_sets_file ops' (exec o self)
  end.

(** Steps a promise reaction can still take: a [then] reaction may leave a
    [catch] reaction behind. *)
Definition job_weight (j : job) : nat :=
  match j with
  | then_stretched _ => 2
  | catch_error _ => 1
  end.

Fixpoint queue_weight (q : list job) : nat :=
  match q with
  | [] => 0
  | j :: q' => job_weight j + queue_weight q'
  end.

(** A pattern that cannot tell a letter from its lower-case form. *)
Fixpoint case_blind (r : RegExp.regex) : Prop :=
  match r with
  | RegExp.Sym cs =>
      ∀ x, RegExp.in_set cs (RegExp.to_lower x) = RegExp.in_set cs x
  | RegExp.Seq r1 r2 | RegExp.Alt r1 r2 => case_blind r1 ∧ case_blind r2
  | RegExp.Star r1 => case_blind r1
  | _ => True
  end.

(** ** Properties *)

(** *** The object store *)

Lemma member_set_prop_eq h l k v : member (set_prop h l k v) (VRef l) k = v.
Proof.
  unfold member, set_prop, deref. rewrite lookup_insert_eq. simpl.
  by rewrite lookup_insert_eq.
Qed.

Lemma member_set_prop_ne h l k v o k' :
  k' ≠ k → member (set_prop h l k v) o k' = member h o k'.
Proof.
  intros Hk. destruct o as [| | | | |l']; try done.
  unfold member, set_prop, deref. destruct (decide (l' = l)) as [->|Hl].
  - rewrite lookup_insert_eq. simpl. by rewrite lookup_insert_ne.
  - by rewrite lookup_insert_ne.
Qed.

Lemma lookup_set_prop_ne h l k v l' :
  l' ≠ l → set_prop h l k v !! l' = h !! l'.
Proof. intros Hl. unfold set_prop. by rewrite lookup_insert_ne. Qed.

Lemma lookup_set_prop_eq h l k v :
  set_prop h l k v !! l = Some (<[k := v]> (deref h l)).
Proof. unfold set_prop. by rewrite lookup_insert_eq. Qed.

Lemma alloc_eq h o : alloc h o = (fresh (dom h), <[fresh (dom h) := o]> h).
Proof. reflexivity. Qed.

Lemma lookup_fresh_None (h : gmap loc (gmap string value)) :
  h !! fresh (dom h) = None.
Proof. apply not_elem_of_dom, is_fresh. Qed.

(** A new empty object changes no property of any value. *)
Lemma member_new_empty h o k :
  member (<[fresh (dom h) := ∅]> h) o k = member h o k.
Proof.
  destruct o as [| | | | |l]; try done.
  unfold member, deref.
  destruct (decide (l = fresh (dom h))) as [->|Hl].
  - by rewrite lookup_insert_eq, lookup_fresh_None.
  - by rewrite lookup_insert_ne.
Qed.

Lemma get_prop_object h o k :
  nullish o = false → get_prop h o k = Ok (member h o k).
Proof. intros H. unfold get_prop. by rewrite H. Qed.

Lemma truthy_not_nullish v : truthy v = true → nullish v = false.
Proof. by destruct v. Qed.

Lemma truthy_string s : truthy (VStr s) = true ↔ s ≠ "".
Proof.
  simpl. destruct (String.eqb_spec s ""); simpl; split; congruence.
Qed.

(** *** Serialising *)

Lemma forallb_eq {A} (f g : A → bool) (l : list A) :
  (∀ x, x ∈ l → f x = g x) → forallb f l = forallb g l.
Proof.
  induction l as [|x l IH]; intros H; simpl; [done|].
  rewrite (H x) by left. rewrite IH; [done|]. intros y Hy. apply H. by right.
Qed.

Lemma stack_length (h : gmap loc (gmap string value)) (stack : list loc) :
  NoDup stack → (∀ l, l ∈ stack → is_Some (h !! l)) →
  (length stack ≤ size h)%nat.
Proof.
  intros Hnd Hin. rewrite <- (size_list_to_set (C:=gset loc) stack Hnd).
  rewrite <- (size_dom h). apply subseteq_size.
  intros l Hl. apply elem_of_list_to_set in Hl. apply elem_of_dom.
  by apply Hin.
Qed.

(** The walk of [JSON.stringify] is never cut off: inside distinct
    objects of the store, any two depths that exceed what is left of the
    store give the same answer. *)
Lemma serialise_fuel h fuel fuel' stack v :
  NoDup stack → (∀ l, l ∈ stack → is_Some (h !! l)) →
  (size h < fuel + length stack)%nat →
  (size h < fuel' + length stack)%nat →
  serialise fuel h stack v = serialise fuel' h stack v.
Proof.
  revert fuel' stack v.
  induction fuel as [|fuel IH]; intros fuel' stack v Hnd Hin Hf Hf'.
  { pose proof (stack_length h stack Hnd Hin). simpl in Hf. lia. }
  destruct fuel' as [|fuel'].
  { pose proof (stack_length h stack Hnd Hin). simpl in Hf'. lia. }
  destruct v as [| | | | |l]; try done. cbn [serialise].
  destruct (decide (l ∈ stack)) as [Hl|Hl].
  { by rewrite !bool_decide_eq_true_2. }
  rewrite !bool_decide_eq_false_2 by done. cbn [negb andb].
  destruct (h !! l) as [o|] eqn:Ho.
  - apply forallb_eq. intros x _. apply IH.
    + by constructor.
    + intros l' Hl'. apply elem_of_cons in Hl' as [->|Hl']; eauto.
    + simpl. lia.
    + simpl. lia.
  - unfold deref. rewrite Ho. simpl. by rewrite map_to_list_empty.
Qed.

Lemma serialisable_fuel h v n :
  serialise (S (size h) + n) h [] v = serialisable h v.
Proof.
  unfold serialisable. apply serialise_fuel; simpl; try lia.
  - constructor.
  - intros l Hl. by apply elem_of_nil in Hl.
Qed.

(** *** Running the methods *)

Ltac unfold_M :=
  unfold mbind, M_bind, mret, M_ret, this, read, write, perform, defer,
    new_object, throw in *.

Lemma setTune_run n v self :
  setTune n v self =
  Ok ((), with_microtasks
            (microtasks self ++
               (if String.eqb n "stretched" then [then_stretched v] else []))
            (with_calls (calls self ++ [ui_applyTune n v])
               (with_store (set_prop (store self) (_data self) n v) self))).
Proof.
  unfold setTune. unfold_M. simpl.
  destruct (String.eqb n "stretched"); simpl; [done|].
  unfold with_microtasks. simpl. by rewrite app_nil_r.
Qed.

Lemma uploadingFailed_run errorText self :
  uploadingFailed errorText self =
  Ok ((), with_calls
            (calls self ++
               [console_log "Video Tool: uploading failed because of" errorText;
                notifier_show
                  (i18n_t (api self) "Couldn’t upload video. Please try another.")
                  "error";
                ui_hidePreloader]) self).
Proof.
  unfold uploadingFailed. unfold_M. simpl. unfold with_calls. simpl.
  by rewrite <- !app_assoc.
Qed.

(** [set video] never throws; its result is one of three shapes. *)
Lemma set_video_run file self :
  set_video file self =
  Ok ((),
      if truthy file then
        let h := set_prop (store self) (_data self) "file" file in
        if truthy (member h file "url")
        then with_calls (calls self ++ [ui_fillVideo (member h file "url")])
               (with_store h self)
        else with_store h self
      else
        let l := fresh (dom (store self)) in
        with_store
          (set_prop (<[l := ∅]> (store self)) (_data self) "file" (VRef l))
          self).
Proof.
  unfold set_video. unfold_M. simpl.
  destruct (truthy file) eqn:Hf; simpl; [|reflexivity].
  rewrite (get_prop_object _ _ _ (truthy_not_nullish _ Hf)).
  destruct (truthy (member _ file "url")); simpl; [|reflexivity].
  by rewrite (get_prop_object _ _ _ (truthy_not_nullish _ Hf)).
Qed.

(** *** validate *)

(** The truthiness of what [validate] returns is the truthiness of
    [savedData.file.url]. *)
Lemma validate_truthiness h savedData :
  nullish savedData = false →
  ∃ v, validate h savedData = Ok v ∧
       truthy v = truthy (member h (member h savedData "file") "url").
Proof.
  intros Hn. unfold validate. rewrite (get_prop_object _ _ _ Hn). simpl.
  destruct (truthy (member h savedData "file")) eqn:Hf.
  - rewrite (get_prop_object _ _ _ (truthy_not_nullish _ Hf)). eauto.
  - eexists. split; [reflexivity|]. rewrite Hf.
    destruct (member h savedData "file"); try done.
Qed.

(** C1: on [{file: {url: "http://x/v.mp4"}}] validate returns the url
    string itself rather than the boolean true, and on [{}] and on
    [{file: {}}] it returns undefined rather than the boolean false. *)
Theorem validate_returns_operand_not_boolean :
  validate sample_store (VRef 1) = Ok (VStr "http://x/v.mp4") ∧
  validate sample_store (VRef 3) = Ok VUndefined ∧
  validate sample_store (VRef 4) = Ok VUndefined.
Proof. repeat split; vm_compute; reflexivity. Qed.

(** *** Tunes *)

(** C9: for every tune name and every starting state, setting the tune to
    true and then to false succeeds and leaves false stored under that
    name in the record. *)
Theorem setTune_true_then_false (n : string) (self : tool) :
  ∃ self', (setTune n (VBool true);; setTune n (VBool false)) self
             = Ok ((), self') ∧
           _data self' = _data self ∧
           data_field self' n = VBool false.
Proof.
  unfold mbind at 1. unfold M_bind at 1. rewrite !setTune_run. simpl.
  eexists. split; [reflexivity|]. split; [done|].
  unfold data_field. simpl. apply member_set_prop_eq.
Qed.

(** *** Setting the file *)

(** C8: for every file data, on an instance whose record exists,
    [set video] succeeds; the file field becomes the file data when that
    is truthy and a new empty object otherwise, every other field of the
    record stays; and the Ui's [fillVideo] is called, once and with the
    url of the file data, exactly when the url of the new file value is
    truthy (for a string: not empty), and not at all otherwise. *)
Theorem set_video_replaces_file (file : value) (self : tool) :
  allocated self →
  ∃ self', set_video file self = Ok ((), self') ∧
    _data self' = _data self ∧
    (if truthy file then data_field self' "file" = file
     else ∃ l, data_field self' "file" = VRef l ∧
               store self !! l = None ∧ store self' !! l = Some ∅) ∧
    (∀ k, k ≠ "file" → data_field self' k = data_field self k) ∧
    let url := member (store self') (data_field self' "file") "url" in
    calls self' =
      calls self ++ (if truthy url then [ui_fillVideo url] else []) ∧
    (truthy url = true → url = member (store self) file "url").
Proof.
  intros Ha. rewrite set_video_run. eexists. split; [reflexivity|].
  unfold data_field. destruct (truthy file) eqn:Hf; simpl.
  - set (h := set_prop _ _ _ _).
    assert (Hfile : member h (VRef (_data self)) "file" = file)
      by apply member_set_prop_eq.
    destruct (truthy (member h file "url")) eqn:Hu; simpl;
      rewrite Hfile, Hu; repeat split; try done.
    + intros k Hk. by apply member_set_prop_ne.
    + intros _. by apply member_set_prop_ne.
    + intros k Hk. by apply member_set_prop_ne.
    + by rewrite app_nil_r.
  - set (l := fresh (dom (store self))).
    assert (Hl : store self !! l = None) by apply lookup_fresh_None.
    assert (Hne : l ≠ _data self).
    { intros Heq. destruct Ha as [o Ho]. rewrite <- Heq in Ho. congruence. }
    rewrite member_set_prop_eq.
    assert (Hnew : set_prop (<[l := ∅]> (store self)) (_data self) "file"
                     (VRef l) !! l = Some ∅).
    { rewrite lookup_set_prop_ne by done. apply lookup_insert_eq. }
    assert (Hurl : member (set_prop (<[l := ∅]> (store self)) (_data self)
                             "file" (VRef l)) (VRef l) "url" = VUndefined).
    { unfold member, deref. by rewrite Hnew. }
    rewrite Hurl. simpl. repeat split; try done.
    + eauto.
    + intros k Hk. rewrite member_set_prop_ne by done.
      apply member_new_empty.
    + by rewrite app_nil_r.
Qed.

Lemma set_video_replaces_file_witness :
  allocated sample_tool ∧
  ∃ self', set_video (VRef 2) sample_tool = Ok ((), self') ∧
    _data self' = _data sample_tool ∧
    (if truthy (VRef 2) then data_field self' "file" = VRef 2
     else ∃ l, data_field self' "file" = VRef l ∧
               store sample_tool !! l = None ∧ store self' !! l = Some ∅) ∧
    (∀ k, k ≠ "file" → data_field self' k = data_field sample_tool k) ∧
    let url := member (store self') (data_field self' "file") "url" in
    calls self' =
      calls sample_tool ++ (if truthy url then [ui_fillVideo url] else []) ∧
    (truthy url = true → url = member (store sample_tool) (VRef 2) "url").
Proof.
  assert (H : allocated sample_tool).
  { exists (<["file" := VRef 5]> {["caption" := VStr ""]}).
    vm_compute. reflexivity. }
  split; [exact H|]. exact (set_video_replaces_file (VRef 2) sample_tool H).
Defined.

(** *** Upload completion *)

Lemma onUpload_nullish response self :
  nullish response = true → onUpload response self = Throw TypeError.
Proof.
  intros Hn. unfold onUpload, mbind, M_bind, read, get_prop. by rewrite Hn.
Qed.

Lemma onUpload_run response self :
  nullish response = false →
  onUpload response self =
  if truthy (member (store self) response "success") &&
     truthy (member (store self) response "file")
  then set_video (member (store self) response "file") self
  else if serialisable (store self) response
       then uploadingFailed
              (Concat "incorrect response: " (JSON_stringify response)) self
       else Throw TypeError.
Proof.
  intros Hn. unfold onUpload. unfold_M. unfold stringify.
  rewrite (get_prop_object _ _ _ Hn).
  destruct (truthy (member (store self) response "success")) eqn:Hs; simpl.
  - unfold read. rewrite (get_prop_object _ _ _ Hn).
    destruct (truthy (member (store self) response "file")); simpl.
    + by rewrite (get_prop_object _ _ _ Hn).
    + by destruct (serialisable (store self) response).
  - rewrite Hs. by destruct (serialisable (store self) response).
Qed.

Lemma count_app p (l1 l2 : list call) : count p (l1 ++ l2) = count p l1 + count p l2.
Proof. induction l1 as [|c l1 IH]; simpl; [done|]. rewrite IH. lia. Qed.

(** C4, as amended: on a response that is undefined or null the
    completion handler throws a TypeError.  On any other response, when
    its success and its file are both truthy the handler does what the
    file setter does on that file.  Otherwise it serialises the response
    for the log: when that fails (the response refers back to itself) the
    handler throws a TypeError, and when it returns the failure path runs,
    which logs, shows one error notification, hides the preloader once and
    changes nothing in the store, so the file field keeps its value. *)
Theorem onUpload_sets_file_or_fails (response : value) (self : tool) :
  let success := member (store self) response "success" in
  let file := member (store self) response "file" in
  (nullish response = true → onUpload response self = Throw TypeError) ∧
  (nullish response = false → truthy success && truthy file = true →
     onUpload response self = set_video file self) ∧
  (nullish response = false → truthy success && truthy file = false →
   serialisable (store self) response = false →
     onUpload response self = Throw TypeError) ∧
  (nullish response = false → truthy success && truthy file = false →
   serialisable (store self) response = true →
     ∃ self',
       onUpload response self = Ok ((), self') ∧
       uploadingFailed
         (Concat "incorrect response: " (JSON_stringify response)) self
         = Ok ((), self') ∧
       calls self' =
         calls self ++
           [console_log "Video Tool: uploading failed because of"
              (Concat "incorrect response: " (JSON_stringify response));
            notifier_show
              (i18n_t (api self) "Couldn’t upload video. Please try another.")
              "error";
            ui_hidePreloader] ∧
       count is_notification (calls self')
         = S (count is_notification (calls self)) ∧
       count is_hidePreloader (calls self')
         = S (count is_hidePreloader (calls self)) ∧
       store self' = store self ∧
       _data self' = _data self ∧
       data_field self' "file" = data_field self "file").
Proof.
  intros success file. split; [apply onUpload_nullish|].
  split; [|split]; intros Hn Hboth; rewrite (onUpload_run _ _ Hn);
    fold success file; rewrite Hboth; [done| |]; intros ->; [done|].
  rewrite uploadingFailed_run. eexists. split; [reflexivity|].
  split; [reflexivity|]. simpl. rewrite !count_app.
  repeat split; try done; simpl; lia.
Qed.

Lemma onUpload_sets_file_or_fails_witness :
  nullish (VRef 8) = false ∧
  serialisable (store sample_tool) (VRef 8) = true ∧
  ∃ self', onUpload (VRef 8) sample_tool = Ok ((), self') ∧
    count is_notification (calls self') = 1 ∧
    count is_hidePreloader (calls self') = 1 ∧
    data_field self' "file" = VRef 5.
Proof.
  split; [reflexivity|].
  assert (Hs : serialisable (store sample_tool) (VRef 8) = true)
    by (vm_compute; reflexivity).
  split; [exact Hs|].
  destruct (onUpload_sets_file_or_fails (VRef 8) sample_tool)
    as (_ & _ & _ & H).
  destruct (H eq_refl eq_refl Hs)
    as (self' & H1 & _ & _ & H2 & H3 & _ & _ & H4).
  exists self'. repeat split; [exact H1|exact H2|exact H3|].
  rewrite H4. vm_compute. reflexivity.
Defined.

(** C4, as stated, fails: an undefined response, and a response with a
    falsy success that refers back to itself, make the completion handler
    throw before the failure path starts: nothing is logged, no
    notification is shown and the preloader is not hidden. *)
Lemma onUpload_throws_before_failure_path :
  onUpload VUndefined sample_tool = Throw TypeError ∧
  (nullish (VRef 12) = false ∧
   truthy (member cyclic_store (VRef 12) "success") = false ∧
   onUpload (VRef 12) (with_store cyclic_store sample_tool)
     = Throw TypeError).
Proof. repeat split; vm_compute; reflexivity. Qed.

(** *** The stretched tune *)

Lemma run_job_then status self :
  run_job (then_stretched status) self =
  Ok ((), with_microtasks
            (microtasks self ++
               match stretched_set (block self) status with
               | None => []
               | Some err => [catch_error err]
               end)
            (with_calls (calls self ++ [block_stretched status]) self)).
Proof.
  unfold run_job. unfold_M. simpl.
  destruct (stretched_set (block self) status); simpl; [done|].
  unfold with_microtasks. simpl. by rewrite app_nil_r.
Qed.

Lemma run_job_catch err self :
  run_job (catch_error err) self =
  Ok ((), with_calls (calls self ++ [console_error err]) self).
Proof. reflexivity. Qed.

(** A promise reaction never throws, never touches the store and never
    notifies the user. *)
Lemma run_job_quiet j self :
  ∃ self', run_job j self = Ok ((), self') ∧
    store self' = store self ∧ _data self' = _data self ∧
    count is_notification (calls self') = count is_notification (calls self).
Proof.
  destruct j as [status|err].
  - rewrite run_job_then. eexists. split; [reflexivity|]. simpl.
    rewrite count_app. repeat split. simpl. lia.
  - rewrite run_job_catch. eexists. split; [reflexivity|]. simpl.
    rewrite count_app. repeat split. simpl. lia.
Qed.

Lemma exec_microtask_then status q self :
  microtasks self = then_stretched status :: q →
  exec host_microtask self =
  with_microtasks
    (q ++ match stretched_set (block self) status with
          | None => []
          | Some err => [catch_error err]
          end)
    (with_calls (calls self ++ [block_stretched status]) self).
Proof.
  intros H. unfold exec, step, microtask. rewrite H, run_job_then. done.
Qed.

(** C5: for every boolean v and every state, [setTune("stretched", v)]
    succeeds, stores v under [stretched], calls only the Ui and appends
    exactly one reaction carrying v to the microtask queue.  When the queue
    was empty, running it to the end assigns v to [block.stretched] exactly
    once; if that assignment throws, the error goes to [console.error] and
    nothing else happens: no notification is shown and v stays stored. *)
Theorem setTune_stretched_propagates_once (v : bool) (self : tool) :
  ∃ self', setTune "stretched" (VBool v) self = Ok ((), self') ∧
    data_field self' "stretched" = VBool v ∧
    calls self' = calls self ++ [ui_applyTune "stretched" (VBool v)] ∧
    microtasks self' = microtasks self ++ [then_stretched (VBool v)] ∧
    (microtasks self = [] →
       let final := drain 2 self' in
       microtasks final = [] ∧
       calls final =
         calls self' ++
           block_stretched (VBool v) ::
           match stretched_set (block self) (VBool v) with
           | None => []
           | Some err => [console_error err]
           end ∧
       count (is_propagation (VBool v)) (calls final)
         = S (count (is_propagation (VBool v)) (calls self)) ∧
       count is_notification (calls final)
         = count is_notification (calls self) ∧
       store final = store self' ∧
       data_field final "stretched" = VBool v).
Proof.
  rewrite setTune_run. simpl. eexists. split; [reflexivity|]. simpl.
  assert (Hd : ∀ h, member (set_prop h (_data self) "stretched" (VBool v))
                      (VRef (_data self)) "stretched" = VBool v)
    by (intros; apply member_set_prop_eq).
  unfold data_field. simpl. rewrite Hd. do 3 (split; [done|]).
  intros Hq. rewrite Hq. unfold drain. simpl.
  set (s1 := with_microtasks [then_stretched (VBool v)] _).
  rewrite (exec_microtask_then (VBool v) [] s1) by done. simpl.
  destruct (stretched_set (block self) (VBool v)) as [err|]; simpl;
    rewrite !count_app, <- ?app_assoc, Hd; repeat split; try done.
  all: simpl; rewrite ?bool_decide_eq_true_2 by done; lia.
Qed.

Lemma setTune_stretched_propagates_once_witness :
  microtasks sample_tool = [] ∧
  ∃ self', setTune "stretched" (VBool true) sample_tool = Ok ((), self') ∧
    calls (drain 2 self') =
      [ui_applyTune "stretched" (VBool true); block_stretched (VBool true);
       console_error (VStr "block is not ready")] ∧
    data_field (drain 2 self') "stretched" = VBool true.
Proof.
  split; [reflexivity|].
  destruct (setTune_stretched_propagates_once true sample_tool)
    as (self' & H1 & _ & H2 & _ & H3).
  destruct (H3 eq_refl) as (_ & H4 & _ & _ & _ & H5).
  exists self'. split; [exact H1|]. split; [|exact H5].
  rewrite H4, H2. reflexivity.
Defined.

(** *** Saving *)

(** C10: [save()] never throws and allocates nothing; it writes the live
    caption content into the caption field and changes no other field of
    the record (the file and the tunes among them), no other object, no
    log and no queue.  What it returns is the reference [this._data]
    itself: a later write by the tool shows through the returned value,
    and a write through the returned value is what the tool reads next. *)
Theorem save_writes_caption_and_returns_record (self : tool) :
  ∃ self', save self = Ok (VRef (_data self), self') ∧
    _data self' = _data self ∧
    data_field self' "caption" = VStr (nodes_caption_innerHTML (ui self)) ∧
    (∀ k, k ≠ "caption" → data_field self' k = data_field self k) ∧
    (∀ l, l ≠ _data self → store self' !! l = store self !! l) ∧
    dom (store self') = {[_data self]} ∪ dom (store self) ∧
    calls self' = calls self ∧ microtasks self' = microtasks self ∧
    (∀ n v later, setTune n v self' = Ok ((), later) →
       member (store later) (VRef (_data self)) n = v) ∧
    (∀ k v, data_field
              (with_store (set_prop (store self') (_data self) k v) self') k
            = v).
Proof.
  unfold save, get_data. unfold_M. simpl. eexists. split; [reflexivity|].
  unfold data_field. simpl. repeat split.
  - apply member_set_prop_eq.
  - intros k Hk. by apply member_set_prop_ne.
  - intros l Hl. by apply lookup_set_prop_ne.
  - unfold set_prop. by rewrite dom_insert_L.
  - intros n v later. rewrite setTune_run. intros [= <-]. simpl.
    apply member_set_prop_eq.
  - intros k v. apply member_set_prop_eq.
Qed.

(** *** Regular expressions: the matcher decides the language *)

Module RegExpFacts.
Import RegExp.

Lemma nullable_spec r : nullable r = true ↔ lang r [].
Proof.
  induction r as [| |cs|r1 IH1 r2 IH2|r1 IH1 r2 IH2|r1 IH]; simpl.
  - split; [discriminate|tauto].
  - tauto.
  - split; [discriminate|]. intros (x & Hx & _). discriminate.
  - rewrite andb_true_iff, IH1, IH2. split.
    + intros [H1 H2]. by exists [], [].
    + intros (u & v & Huv & H1 & H2). symmetry in Huv.
      apply app_eq_nil in Huv as [-> ->]. done.
  - rewrite orb_true_iff, IH1, IH2. tauto.
  - split; [|done]. intros _. exists []. by split.
Qed.

Lemma lang_star_cons r x w :
  lang (Star r) (x :: w) ↔
  ∃ u v, w = u ++ v ∧ lang r (x :: u) ∧ lang (Star r) v.
Proof.
  split.
  - intros (ws & Hw & Hall). induction Hall as [|w1 ws H1 Hall IH].
    + discriminate.
    + destruct w1 as [|y u]; simpl in Hw.
      * by apply IH.
      * injection Hw as <- ->. exists u, (concat ws). split; [done|].
        split; [done|]. by exists ws.
  - intros (u & v & -> & H1 & ws & -> & Hall).
    exists ((x :: u) :: ws). split; [done|]. by constructor.
Qed.

Lemma deriv_spec r x w : lang (deriv x r) w ↔ lang r (x :: w).
Proof.
  revert w.
  induction r as [| |cs|r1 IH1 r2 IH2|r1 IH1 r2 IH2|r1 IH]; intros w.
  - done.
  - simpl. split; [tauto|discriminate].
  - simpl. destruct (in_set cs x) eqn:Hx; simpl.
    + split.
      * intros ->. eauto.
      * by intros (y & [= <- ->] & _).
    + split; [tauto|]. intros (y & [= <- ->] & Hy). congruence.
  - assert (Hseq : lang (Seq (deriv x r1) r2) w ↔
              ∃ u v, w = u ++ v ∧ lang r1 (x :: u) ∧ lang r2 v).
    { simpl. split; intros (u & v & -> & H1 & H2); exists u, v;
        (split; [done|]); (split; [|done]); by apply IH1. }
    assert (Hcons : lang (Seq r1 r2) (x :: w) ↔
              (lang r1 [] ∧ lang r2 (x :: w)) ∨
              ∃ u v, w = u ++ v ∧ lang r1 (x :: u) ∧ lang r2 v).
    { simpl. split.
      - intros (u & v & Huv & H1 & H2). destruct u as [|y u]; simpl in Huv.
        + left. by subst v.
        + right. injection Huv as <- ->. eauto.
      - intros [[H1 H2]|(u & v & -> & H1 & H2)].
        + by exists [], (x :: w).
        + by exists (x :: u), v. }
    rewrite Hcons. cbn [deriv].
    destruct (nullable r1) eqn:Hn.
    + change (lang (Alt ?a ?b) w) with (lang a w ∨ lang b w).
      rewrite Hseq, IH2. apply nullable_spec in Hn. tauto.
    + rewrite Hseq. split; [tauto|]. intros [[H1 _]|H]; [|done].
      apply nullable_spec in H1. congruence.
  - simpl. by rewrite IH1, IH2.
  - rewrite lang_star_cons. simpl. split.
    + intros (u & v & -> & H1 & H2). exists u, v. by rewrite <- IH.
    + intros (u & v & -> & H1 & H2). exists u, v. by rewrite IH.
Qed.

Lemma accepts_spec r w : accepts r w = true ↔ lang r w.
Proof.
  revert r. induction w as [|x w IH]; intros r; simpl.
  - apply nullable_spec.
  - by rewrite IH, deriv_spec.
Qed.

Lemma lang_any w : lang (Star (Sym AnyChar)) w.
Proof.
  exists ((λ x, [x]) <$> w). split.
  - induction w as [|x w IH]; simpl; [done|]. by f_equal.
  - induction w as [|x w IH]; simpl; constructor; [|done].
    by exists x.
Qed.

(** A pattern matches exactly when some stretch of the string is in its
    language, at the very start under a caret and up to the very end under
    a dollar. *)
Lemma matches_spec rx w :
  matches rx w = true ↔
  ∃ before mid after,
    w = before ++ mid ++ after ∧
    lang (effective rx) mid ∧
    (caret rx = true → before = []) ∧ (dollar rx = true → after = []).
Proof.
  unfold matches. rewrite accepts_spec. unfold search. simpl. split.
  - intros (u & v' & -> & Hu & mid & v & -> & Hmid & Hv).
    exists u, mid, v. repeat split; [done| |].
    + intros Hc. by rewrite Hc in Hu.
    + intros Hd. by rewrite Hd in Hv.
  - intros (u & mid & v & -> & Hmid & Hc & Hd).
    exists u, (mid ++ v). split; [done|]. split.
    + destruct (caret rx); [by apply Hc|apply lang_any].
    + exists mid, v. repeat split; [done|].
      destruct (dollar rx); [by apply Hd|apply lang_any].
Qed.

End RegExpFacts.

(** *** Code units and strings *)

Ltac eval_codes :=
  repeat match goal with
  | |- context [RegExp.code ?c] =>
      let v := eval vm_compute in (RegExp.code c) in
      change (RegExp.code c) with v
  | |- context [RegExp.units ?s] =>
      let v := eval vm_compute in (RegExp.units s) in
      change (RegExp.units s) with v
  end.

Ltac N_bool :=
  repeat match goal with
  | |- context [N.leb ?a ?b] => destruct (N.leb_spec a b)
  | |- context [N.eqb ?a ?b] => destruct (N.eqb_spec a b)
  end; simpl; try done; try lia.

Lemma all_ascii_spec p :
  all_ascii p = true → ∀ x, (x < 128)%N → p x = true.
Proof.
  unfold all_ascii. rewrite forallb_forall. intros H x Hx.
  rewrite <- (N2Nat.id x). apply H. apply in_seq. lia.
Qed.

(** A fact about every code unit: checked on the ASCII ones and shown for
    the others. *)
Lemma every_code_unit (p : N → bool) :
  all_ascii p = true → (∀ x, (128 ≤ x)%N → p x = true) → ∀ x, p x = true.
Proof.
  intros Hsmall Hbig x. destruct (N.lt_ge_cases x 128).
  - by apply all_ascii_spec.
  - by apply Hbig.
Qed.

Lemma is_upper_big x : (128 ≤ x)%N → RegExp.is_upper x = false.
Proof. intros H. unfold RegExp.is_upper. N_bool. Qed.

Lemma is_lower_big x : (128 ≤ x)%N → RegExp.is_lower x = false.
Proof. intros H. unfold RegExp.is_lower. N_bool. Qed.

Lemma to_lower_big x : (128 ≤ x)%N → RegExp.to_lower x = x.
Proof. intros H. unfold RegExp.to_lower. by rewrite is_upper_big. Qed.

Lemma to_upper_big x : (128 ≤ x)%N → RegExp.to_upper x = x.
Proof. intros H. unfold RegExp.to_upper. by rewrite is_lower_big. Qed.

Lemma code_inj c c' : RegExp.code c = RegExp.code c' → c = c'.
Proof.
  unfold RegExp.code. intros H.
  by rewrite <- (ascii_N_embedding c), H, ascii_N_embedding.
Qed.

Lemma units_app a b :
  RegExp.units (a +:+ b) = RegExp.units a ++ RegExp.units b.
Proof.
  unfold RegExp.units. induction a as [|c a IH]; simpl; [done|].
  f_equal. exact IH.
Qed.

(** A string whose code units start with those of [a] starts with [a]. *)
Lemma units_prefix a s w :
  RegExp.units s = RegExp.units a ++ w →
  ∃ rest, s = a +:+ rest ∧ w = RegExp.units rest.
Proof.
  revert s. induction a as [|c a IH]; intros s H.
  - exists s. done.
  - destruct s as [|c' s]; [done|].
    unfold RegExp.units in H. simpl in H. injection H as Hc H. apply code_inj in Hc. subst c'.
    destruct (IH s H) as (rest & -> & ->). by exists rest.
Qed.

Lemma lower_upper_is_upper x :
  RegExp.is_lower x = true → RegExp.is_upper (RegExp.to_upper x) = true.
Proof.
  revert x. cut (∀ x, implb (RegExp.is_lower x)
                        (RegExp.is_upper (RegExp.to_upper x)) = true).
  { intros H x Hx. specialize (H x). by rewrite Hx in H. }
  apply every_code_unit; [vm_compute; reflexivity|].
  intros x Hx. by rewrite is_lower_big.
Qed.

Lemma upper_lower_is_lower x :
  RegExp.is_upper x = true → RegExp.is_lower (RegExp.to_lower x) = true.
Proof.
  revert x. cut (∀ x, implb (RegExp.is_upper x)
                        (RegExp.is_lower (RegExp.to_lower x)) = true).
  { intros H x Hx. specialize (H x). by rewrite Hx in H. }
  apply every_code_unit; [vm_compute; reflexivity|].
  intros x Hx. by rewrite is_upper_big.
Qed.

Lemma all_chars_Forall p s :
  all_chars p s = true ↔ Forall (λ c, p c = true) (list_ascii_of_string s).
Proof.
  induction s as [|c s IH]; simpl.
  - split; [constructor|done].
  - rewrite andb_true_iff, IH, Forall_cons. done.
Qed.

(** Under the [i] flag a character that is not an upper-case letter
    admits exactly the code units whose lower-case form it is. *)
Lemma nocase_single c x :
  not_upper c = true →
  RegExp.in_set (RegExp.NoCase (RegExp.Single c)) x = true ↔
  RegExp.to_lower x = RegExp.code c.
Proof.
  unfold not_upper. rewrite negb_true_iff. intros Hc. simpl.
  rewrite orb_true_iff, !N.eqb_eq. split.
  - intros [H|H]; [done|].
    destruct (RegExp.is_lower x) eqn:Hx.
    + apply lower_upper_is_upper in Hx. congruence.
    + unfold RegExp.to_upper in H. rewrite Hx in H. subst x.
      unfold RegExp.to_lower. by rewrite Hc.
  - intros <-. by left.
Qed.

Lemma nocase_non_space x :
  RegExp.in_set (RegExp.NoCase RegExp.NonSpace) x = non_space x.
Proof.
  revert x. cut (∀ x, Bool.eqb
    (RegExp.in_set (RegExp.NoCase RegExp.NonSpace) x) (non_space x) = true).
  { intros H x. by apply Bool.eqb_prop. }
  apply every_code_unit; [vm_compute; reflexivity|].
  intros x Hx. simpl. rewrite to_lower_big, to_upper_big by done.
  rewrite orb_diag. apply Bool.eqb_reflx.
Qed.

Lemma query_chars_big x :
  (128 ≤ x)%N → RegExp.in_set query_chars x = false.
Proof.
  intros H. unfold query_chars. cbn [RegExp.in_set]. eval_codes. N_bool.
Qed.

Lemma nocase_query_chars x :
  RegExp.in_set (RegExp.NoCase query_chars) x = query_char_any_case x.
Proof.
  revert x. cut (∀ x, Bool.eqb
    (RegExp.in_set (RegExp.NoCase query_chars) x) (query_char_any_case x)
    = true).
  { intros H x. by apply Bool.eqb_prop. }
  apply every_code_unit; [vm_compute; reflexivity|].
  intros x Hx. cbn [RegExp.in_set].
  rewrite to_lower_big, to_upper_big, query_chars_big by done.
  unfold query_char_any_case, is_digit.
  rewrite is_lower_big, is_upper_big by done. N_bool.
Qed.

Lemma plain_query_chars x :
  RegExp.in_set query_chars x = query_char_lower_case x.
Proof.
  revert x. cut (∀ x, Bool.eqb
    (RegExp.in_set query_chars x) (query_char_lower_case x) = true).
  { intros H x. by apply Bool.eqb_prop. }
  apply every_code_unit; [vm_compute; reflexivity|].
  intros x Hx. rewrite query_chars_big by done.
  unfold query_char_lower_case, is_digit.
  rewrite is_lower_big by done. N_bool.
Qed.

(** *** The languages of the pieces of the URL pattern *)

Section Pieces.
Import RegExp RegExpFacts.

(** Lower-casing yields a code unit that is not a lower-case letter only
    from that code unit itself. *)
Lemma to_lower_fixed c x : is_lower c = false → to_lower x = c → x = c.
Proof.
  intros Hc H. destruct (is_upper x) eqn:Hx.
  - apply upper_lower_is_lower in Hx. congruence.
  - unfold to_lower in H. by rewrite Hx in H.
Qed.

Lemma lang_Lit s w : lang (Lit s) w ↔ w = units s.
Proof.
  revert w. unfold units. induction s as [|c s IH]; intros w; simpl; [done|].
  split.
  - intros (u & v & -> & (x & -> & Hx) & Hv). apply N.eqb_eq in Hx.
    apply IH in Hv. by subst.
  - intros ->. exists [code c], (code <$> list_ascii_of_string s).
    split; [done|]. split.
    + exists (code c). split; [done|]. apply N.eqb_refl.
    + by apply IH.
Qed.

Lemma lang_Lit_nocase s w :
  all_chars not_upper s = true →
  lang (ignore_case (Lit s)) w ↔ ascii_lower w = units s.
Proof.
  revert w. unfold units, ascii_lower.
  induction s as [|c s IH]; intros w Hs; simpl.
  - split; [by intros ->|]. by destruct w.
  - simpl in Hs. apply andb_true_iff in Hs as [Hc Hs]. split.
    + intros (u & v & -> & (x & -> & Hx) & Hv).
      apply (nocase_single c x Hc) in Hx. apply (IH _ Hs) in Hv.
      change ([x] ++ v) with (x :: v). rewrite fmap_cons. by rewrite Hx, Hv.
    + destruct w as [|x v]; [done|]. rewrite fmap_cons. intros [= Hx Hv].
      exists [x], v. split; [done|]. split.
      * exists x. split; [done|]. by apply (nocase_single c x Hc).
      * by apply (IH _ Hs).
Qed.

Lemma lang_one_of_nocase words w :
  Forall (λ s, all_chars not_upper s = true) words →
  lang (ignore_case (one_of words)) w ↔
  ∃ word, word ∈ words ∧ ascii_lower w = units word.
Proof.
  induction 1 as [|word words Hword Hwords IH]; simpl.
  - split; [done|]. intros (word & H & _). by apply elem_of_nil in H.
  - rewrite (lang_Lit_nocase _ _ Hword), IH. split.
    + intros [H|(word' & Hin & H)].
      * exists word. split; [left|done].
      * exists word'. split; [by right|done].
    + intros (word' & Hin & H). apply elem_of_cons in Hin as [->|Hin].
      * by left.
      * right. eauto.
Qed.

Lemma lang_star_sym cs w :
  lang (Star (Sym cs)) w ↔ Forall (λ x, in_set cs x = true) w.
Proof.
  split.
  - intros (ws & -> & Hall). induction Hall as [|u ws Hu Hall IH]; simpl.
    + constructor.
    + destruct Hu as (x & -> & Hx). by constructor.
  - intros Hall. exists ((λ x, [x]) <$> w). split.
    + clear Hall. induction w as [|x w IH]; simpl; [done|]. by f_equal.
    + induction Hall as [|x w Hx Hall IH]; simpl; constructor; [|done].
      by exists x.
Qed.

Lemma lang_plus_sym cs w :
  lang (Plus (Sym cs)) w ↔ w ≠ [] ∧ Forall (λ x, in_set cs x = true) w.
Proof.
  unfold Plus. change (lang (Seq ?a ?b) w) with
    (∃ u v, w = u ++ v ∧ lang a u ∧ lang b v).
  split.
  - intros (u & v & -> & (x & -> & Hx) & Hv). apply lang_star_sym in Hv.
    split; [done|]. by constructor.
  - intros [Hne Hall]. destruct Hall as [|x w Hx Hall]; [done|].
    exists [x], w. split; [done|]. split; [by exists x|].
    by apply lang_star_sym.
Qed.

Lemma Forall_ext_bool (p q : N → bool) w :
  (∀ x, p x = q x) →
  Forall (λ x, p x = true) w ↔ Forall (λ x, q x = true) w.
Proof. intros H. apply Forall_proper; [|done]. intros x. by rewrite H. Qed.

End Pieces.

Section Patterns.
Import RegExp RegExpFacts.

Lemma lang_seq7 r1 r2 r3 r4 r5 r6 r7 w :
  lang (sequence [r1; r2; r3; r4; r5; r6; r7]) w ↔
  ∃ u1 u2 u3 u4 u5 u6 u7,
    w = u1 ++ u2 ++ u3 ++ u4 ++ u5 ++ u6 ++ u7 ∧
    lang r1 u1 ∧ lang r2 u2 ∧ lang r3 u3 ∧ lang r4 u4 ∧ lang r5 u5 ∧
    lang r6 u6 ∧ lang r7 u7.
Proof.
  simpl. split.
  - intros (u1 & ? & -> & H1 & u2 & ? & -> & H2 & u3 & ? & -> & H3 &
            u4 & ? & -> & H4 & u5 & ? & -> & H5 & u6 & ? & -> & H6 &
            u7 & ? & -> & H7 & ->).
    exists u1, u2, u3, u4, u5, u6, u7. by rewrite app_nil_r.
  - intros (u1 & u2 & u3 & u4 & u5 & u6 & u7 & -> &
            H1 & H2 & H3 & H4 & H5 & H6 & H7).
    exists u1, (u2 ++ u3 ++ u4 ++ u5 ++ u6 ++ u7). repeat split; [done|].
    exists u2, (u3 ++ u4 ++ u5 ++ u6 ++ u7). repeat split; [done|].
    exists u3, (u4 ++ u5 ++ u6 ++ u7). repeat split; [done|].
    exists u4, (u5 ++ u6 ++ u7). repeat split; [done|].
    exists u5, (u6 ++ u7). repeat split; [done|].
    exists u6, u7. repeat split; [done|].
    exists u7, []. by rewrite app_nil_r.
Qed.

Lemma lang_Chr c w : lang (Chr c) w ↔ w = [code c].
Proof.
  simpl. split.
  - intros (x & -> & Hx). apply N.eqb_eq in Hx. by subst.
  - intros ->. exists (code c). split; [done|]. apply N.eqb_refl.
Qed.

Lemma lang_Chr_nocase c w :
  not_upper c = true →
  lang (ignore_case (Chr c)) w ↔ ascii_lower w = [code c].
Proof.
  intros Hc. unfold ascii_lower. simpl. split.
  - intros (x & -> & Hx). apply (nocase_single c x Hc) in Hx.
    rewrite fmap_cons. by rewrite Hx.
  - destruct w as [|x [|y w]]; try done. rewrite fmap_cons.
    intros [= Hx]. exists x. split; [done|].
    by apply (nocase_single c x Hc).
Qed.

(** The optional query group, under the [i] flag and without it. *)
Lemma lang_query_nocase w :
  lang (ignore_case
          (Opt (sequence [Chr "?"; Star (Sym query_chars)]))) w ↔
  w = [] ∨
  ∃ q, w = code "?" :: q ∧ Forall (λ x, query_char_any_case x = true) q.
Proof.
  change (lang (ignore_case (Opt ?r)) w)
    with (lang (ignore_case r) w ∨ w = []).
  change (lang (ignore_case (sequence [?a; ?b])) w)
    with (∃ u v, w = u ++ v ∧ lang (ignore_case a) u ∧
           ∃ u' v', v = u' ++ v' ∧ lang (ignore_case b) u' ∧ v' = []).
  split.
  - intros [(u & v & -> & Hu & q & ? & -> & Hq & ->)| ->]; [|by left].
    right. apply (lang_Chr_nocase "?") in Hu; [|done].
    destruct u as [|x [|y u]]; try done. unfold ascii_lower in Hu.
    rewrite fmap_cons in Hu.
    injection Hu as Hx. apply to_lower_fixed in Hx; [|done]. subst x.
    exists q. rewrite app_nil_r. split; [done|].
    change (ignore_case (Star (Sym query_chars)))
      with (Star (Sym (NoCase query_chars))) in Hq.
    apply lang_star_sym in Hq.
    by apply (Forall_ext_bool _ _ _ nocase_query_chars).
  - intros [-> |(q & -> & Hq)]; [by right|]. left.
    exists [code "?"], q. split; [done|]. split.
    + by apply (lang_Chr_nocase "?").
    + exists q, []. rewrite app_nil_r. repeat split.
      change (ignore_case (Star (Sym query_chars)))
        with (Star (Sym (NoCase query_chars))).
      apply lang_star_sym.
      by apply (Forall_ext_bool _ _ _ nocase_query_chars).
Qed.

Lemma lang_query_plain w :
  lang (Opt (sequence [Chr "?"; Star (Sym query_chars)])) w ↔
  w = [] ∨
  ∃ q, w = code "?" :: q ∧ Forall (λ x, query_char_lower_case x = true) q.
Proof.
  change (lang (Opt ?r) w) with (lang r w ∨ w = []).
  change (lang (sequence [?a; ?b]) w)
    with (∃ u v, w = u ++ v ∧ lang a u ∧
           ∃ u' v', v = u' ++ v' ∧ lang b u' ∧ v' = []).
  split.
  - intros [(u & v & -> & Hu & q & ? & -> & Hq & ->)| ->]; [|by left].
    right. apply lang_Chr in Hu. subst u.
    exists q. rewrite app_nil_r. split; [done|].
    apply lang_star_sym in Hq.
    by apply (Forall_ext_bool _ _ _ plain_query_chars).
  - intros [-> |(q & -> & Hq)]; [by right|]. left.
    exists [code "?"], q. split; [done|]. split.
    + by apply lang_Chr.
    + exists q, []. rewrite app_nil_r. repeat split.
      apply lang_star_sym.
      by apply (Forall_ext_bool _ _ _ plain_query_chars).
Qed.

Lemma extensions_lower_case :
  Forall (λ s, all_chars not_upper s = true) extensions.
Proof. repeat constructor. Qed.

(** The words the URL pattern matches between its first code unit and
    the end anchor. *)
Lemma video_pattern_lang w :
  lang (effective video_pattern) w ↔
  ∃ scheme rest ext query,
    w = scheme ++ units "://" ++ rest ++ units "." ++ ext ++ query ∧
    (ascii_lower scheme = units "http" ∨ ascii_lower scheme = units "https") ∧
    rest ≠ [] ∧ Forall (λ x, non_space x = true) rest ∧
    (∃ word, word ∈ extensions ∧ ascii_lower ext = units word) ∧
    (query = [] ∨
     ∃ q, query = code "?" :: q ∧
          Forall (λ x, query_char_any_case x = true) q).
Proof.
  change (effective video_pattern) with
    (sequence [ignore_case (Lit "http"); ignore_case (Opt (Chr "s"));
               ignore_case (Lit "://");
               Plus (Sym (NoCase NonSpace)); ignore_case (Chr ".");
               ignore_case (one_of extensions);
               ignore_case
                 (Opt (sequence [Chr "?"; Star (Sym query_chars)]))]).
  rewrite lang_seq7. split.
  - intros (u1 & u2 & u3 & u4 & u5 & u6 & u7 & -> &
            H1 & H2 & H3 & H4 & H5 & H6 & H7).
    apply lang_Lit_nocase in H1; [|done].
    change (lang (ignore_case (Opt (Chr "s"))) u2)
      with (lang (ignore_case (Chr "s")) u2 ∨ u2 = []) in H2.
    apply lang_Lit_nocase in H3; [|done].
    apply lang_plus_sym in H4 as [H4 H4'].
    apply (Forall_ext_bool _ _ _ nocase_non_space) in H4'.
    apply lang_Chr_nocase in H5; [|done].
    apply (lang_one_of_nocase _ _ extensions_lower_case) in H6.
    apply lang_query_nocase in H7.
    assert (u3 = units "://") as ->.
    { unfold ascii_lower in H3.
      destruct u3 as [|a [|b [|c [|d u3]]]]; try done.
      rewrite !fmap_cons in H3. injection H3 as Ha Hb Hc.
      apply to_lower_fixed in Ha, Hb, Hc; try done. by subst. }
    assert (u5 = units ".") as ->.
    { unfold ascii_lower in H5. destruct u5 as [|a [|b u5]]; try done.
      rewrite !fmap_cons in H5. injection H5 as Ha.
      apply to_lower_fixed in Ha; try done. by subst. }
    exists (u1 ++ u2), u4, u6, u7. rewrite <- !app_assoc.
    repeat split; try done.
    destruct H2 as [H2| ->].
    + apply lang_Chr_nocase in H2; [|done]. right.
      unfold ascii_lower in *. by rewrite fmap_app, H1, H2.
    + left. by rewrite app_nil_r.
  - intros (scheme & rest & ext & query & -> & Hs & Hr & Hr' & He & Hq).
    assert (∃ u1 u2, scheme = u1 ++ u2 ∧
              ascii_lower u1 = units "http" ∧
              (ascii_lower u2 = [code "s"] ∨ u2 = []))
      as (u1 & u2 & -> & H1 & H2).
    { destruct Hs as [Hs|Hs].
      - exists scheme, []. rewrite app_nil_r. eauto.
      - unfold ascii_lower in *.
        destruct scheme as [|a [|b [|c [|d [|e [|f scheme]]]]]]; try done.
        exists [a; b; c; d], [e]. rewrite !fmap_cons in Hs.
        injection Hs as Ha Hb Hc Hd He'. rewrite !fmap_cons.
        split; [done|]. split; [by rewrite Ha, Hb, Hc, Hd|].
        left. by rewrite He'. }
    exists u1, u2, (units "://"), rest, (units "."), ext, query.
    rewrite <- !app_assoc. split; [done|]. repeat split.
    + by apply lang_Lit_nocase.
    + change (lang (ignore_case (Opt (Chr "s"))) u2)
        with (lang (ignore_case (Chr "s")) u2 ∨ u2 = []).
      destruct H2 as [H2| ->]; [left|by right].
      by apply lang_Chr_nocase.
    + by apply lang_Lit_nocase.
    + apply lang_plus_sym. split; [done|].
      by apply (Forall_ext_bool _ _ _ nocase_non_space).
    + by apply lang_Chr_nocase.
    + by apply (lang_one_of_nocase _ _ extensions_lower_case).
    + by apply lang_query_nocase.
Qed.

End Patterns.

(** *** The URL pattern of pasteConfig *)

Lemma video_pattern_matches w :
  RegExp.matches video_pattern w = true ↔ matched_shape w.
Proof.
  rewrite RegExpFacts.matches_spec. split.
  - intros (before & mid & after & -> & Hmid & _ & Hafter).
    rewrite (Hafter eq_refl), app_nil_r. clear Hafter.
    apply video_pattern_lang in Hmid
      as (scheme & rest & ext & query & -> & H).
    by exists before, scheme, rest, ext, query.
  - intros (before & scheme & rest & ext & query & -> & H).
    exists before,
      (scheme ++ RegExp.units "://" ++ rest ++ RegExp.units "." ++
       ext ++ query), [].
    split; [by rewrite app_nil_r|]. split; [|done].
    apply video_pattern_lang. by exists scheme, rest, ext, query.
Qed.

(** The stated shape is decided by its pattern. *)
Lemma stated_shape_matches w :
  stated_shape w → RegExp.matches stated_pattern w = true.
Proof.
  intros (scheme & rest & ext & query & -> & Hscheme & Hrest & Hrest' &
          Hext & Hquery).
  apply RegExpFacts.matches_spec.
  exists [], (scheme ++ RegExp.units "://" ++ rest ++ RegExp.units "." ++
              ext ++ query), [].
  split; [by rewrite app_nil_r|]. split; [|done].
  change (RegExp.effective stated_pattern) with
    (RegExp.sequence [
       RegExp.Lit "http"; RegExp.Opt (RegExp.Chr "s"); RegExp.Lit "://";
       RegExp.Plus (RegExp.Sym RegExp.NonSpace); RegExp.Chr ".";
       RegExp.ignore_case (one_of extensions);
       RegExp.Opt (RegExp.sequence
                     [RegExp.Chr "?";
                      RegExp.Star (RegExp.Sym query_chars)])]).
  apply lang_seq7.
  assert (∃ u2, scheme = RegExp.units "http" ++ u2 ∧
            (u2 = [RegExp.code "s"] ∨ u2 = [])) as (u2 & -> & H2).
  { destruct Hscheme as [-> | ->].
    - exists []. eauto.
    - exists [RegExp.code "s"]. eauto. }
  exists (RegExp.units "http"), u2, (RegExp.units "://"), rest,
    (RegExp.units "."), ext, query.
  rewrite <- !app_assoc. split; [done|]. repeat split.
  - by apply lang_Lit.
  - change (RegExp.lang (RegExp.Opt (RegExp.Chr "s")) u2)
      with (RegExp.lang (RegExp.Chr "s") u2 ∨ u2 = []).
    destruct H2 as [-> | ->]; [left|by right]. by apply lang_Chr.
  - by apply lang_Lit.
  - by apply lang_plus_sym.
  - by apply lang_Chr.
  - by apply (lang_one_of_nocase _ _ extensions_lower_case).
  - by apply lang_query_plain.
Qed.

(** C7, as amended: the URL pattern finds a match in a string, taken as
    its sequence of UTF-16 code units, exactly when the string ends with
    [http://] or [https://] with its letters in either case, one or more
    code units that are not white space, a dot, one of the eleven
    extensions with its letters in either case and, optionally, a question
    mark followed by ASCII letters of either case, digits and equals
    signs; anything may come before.  It matches the clip URL of the
    specification and does not match the PDF one. *)
Theorem video_pattern_matches_shape :
  (∀ w, RegExp.matches video_pattern w = true ↔ matched_shape w) ∧
  RegExp.test video_pattern "https://cdn.example.com/clip.mp4?x=1" = true ∧
  RegExp.test video_pattern "https://example.com/doc.pdf" = false.
Proof.
  split; [apply video_pattern_matches|]. split; vm_compute; reflexivity.
Qed.

(** C7, as stated, fails: a query string with an upper-case letter is
    matched although the stated shape excludes it, and so is a URL that
    follows other text. *)
Lemma video_pattern_matches_outside_stated_shape :
  (RegExp.test video_pattern "https://cdn.example.com/clip.mp4?X=1" = true ∧
   ¬ stated_shape (RegExp.units "https://cdn.example.com/clip.mp4?X=1")) ∧
  (RegExp.test video_pattern "see https://cdn.example.com/clip.mp4" = true ∧
   ¬ stated_shape (RegExp.units "see https://cdn.example.com/clip.mp4")).
Proof.
  split; (split; [vm_compute; reflexivity|]);
    intros H; apply stated_shape_matches in H; vm_compute in H; discriminate.
Qed.

(** *** Paste routing *)

Lemma blob_pattern_test s :
  RegExp.test blob_pattern s = true ↔ ∃ rest, s = "blob:" +:+ rest.
Proof.
  unfold RegExp.test. rewrite RegExpFacts.matches_spec. split.
  - intros (before & mid & after & Hs & Hmid & Hbefore & _).
    rewrite (Hbefore eq_refl) in Hs. apply lang_Lit in Hmid. subst mid.
    destruct (units_prefix _ _ _ Hs) as (rest & -> & _). by exists rest.
  - intros (rest & ->).
    exists [], (RegExp.units "blob:"), (RegExp.units rest).
    split; [by rewrite units_app|]. split; [by apply lang_Lit|done].
Qed.

Lemma strict_eq_refl v : strict_eq v v = true.
Proof. unfold strict_eq. by apply bool_decide_eq_true_2. Qed.

Lemma strict_eq_ne v w : v ≠ w → strict_eq v w = false.
Proof. unfold strict_eq. by apply bool_decide_eq_false_2. Qed.

(** C6: for every paste event that is not undefined or null, read in the
    store of the tool.  A tag event whose video source, converted to a
    string, starts with "blob:" is fetched and, when the fetch delivers a
    blob, that blob goes to the Uploader's [uploadByFile]; a tag event
    with any other source, and a pattern event, show the preloader for
    the URL and hand it to [uploadByUrl]; a file event hands its file to
    [uploadByFile]; an event of any other type does nothing and does not
    throw.  A source that has no string form (an object with a [toString]
    entry of its own) makes the conversion throw, and nothing is
    uploaded. *)
Theorem onPaste_routes (blob_of : value → option value) (event : value)
    (self : tool) :
  nullish event = false →
  let h := store self in
  let type := member h event "type" in
  let detail := member h event "detail" in
  let emits log := Ok ((), with_calls (calls self ++ log) self) in
  (type = VStr "tag" → nullish detail = false →
   nullish (member h detail "data") = false →
     let src := member h (member h detail "data") "src" in
     (∀ text, ToString h src = Ok text →
        (∃ rest, text = "blob:" +:+ rest) →
        onPaste blob_of event self =
          match blob_of src with
          | Some file => emits [window_fetch src; uploader_uploadByFile file]
          | None => Throw (Rejected src)
          end) ∧
     (∀ text, ToString h src = Ok text →
        (¬ ∃ rest, text = "blob:" +:+ rest) →
        onPaste blob_of event self =
          emits [ui_showPreloader src; uploader_uploadByUrl src]) ∧
     (∀ e, ToString h src = Throw e →
        onPaste blob_of event self = Throw e)) ∧
  (type = VStr "pattern" → nullish detail = false →
     onPaste blob_of event self =
       emits [ui_showPreloader (member h detail "data");
              uploader_uploadByUrl (member h detail "data")]) ∧
  (type = VStr "file" → nullish detail = false →
     onPaste blob_of event self =
       emits [uploader_uploadByFile (member h detail "file")]) ∧
  (type ≠ VStr "tag" → type ≠ VStr "pattern" → type ≠ VStr "file" →
     onPaste blob_of event self = Ok ((), self)).
Proof.
  intros Hev h type detail emits.
  assert (Hread : ∀ o k, nullish o = false →
            read o k self = Ok (member h o k, self)).
  { intros o k Ho. unfold read. by rewrite (get_prop_object _ _ _ Ho). }
  remember (onPaste blob_of event self) as out eqn:E.
  unfold onPaste in E. unfold mbind at 1 in E. unfold M_bind at 1 in E.
  rewrite (Hread _ _ Hev) in E. fold type in E.
  split; [|split; [|split]].
  - intros Htype Hdetail Hdata.
    set (src := member h (member h detail "data") "src").
    rewrite Htype, strict_eq_refl in E. unfold mbind, M_bind in E.
    rewrite (Hread _ _ Hev) in E. fold detail in E.
    rewrite (Hread _ _ Hdetail), (Hread _ _ Hdata) in E. fold src in E.
    unfold to_string in E. fold h in E.
    split; [|split].
    + intros text Htext Hblob. rewrite Htext in E.
      apply blob_pattern_test in Hblob. rewrite Hblob in E.
      unfold perform, uploadFile, throw, perform in E. simpl in E.
      destruct (blob_of src); [|done].
      rewrite E. unfold emits, with_calls. simpl. by rewrite <- app_assoc.
    + intros text Htext Hblob. rewrite Htext in E.
      destruct (RegExp.test blob_pattern text) eqn:Htest.
      { apply blob_pattern_test in Htest. contradiction. }
      rewrite (Hread _ _ Hdata) in E.
      unfold uploadUrl, mbind, M_bind, perform in E. simpl in E.
      rewrite E. unfold emits, with_calls. simpl. by rewrite <- app_assoc.
    + intros e He. by rewrite He in E.
  - intros Htype Hdetail. rewrite Htype in E.
    rewrite strict_eq_ne in E by done. rewrite strict_eq_refl in E.
    unfold mbind, M_bind in E. rewrite (Hread _ _ Hev) in E.
    fold detail in E. rewrite (Hread _ _ Hdetail) in E.
    unfold uploadUrl, mbind, M_bind, perform in E. simpl in E.
    rewrite E. unfold emits, with_calls. simpl. by rewrite <- app_assoc.
  - intros Htype Hdetail. rewrite Htype in E.
    rewrite !strict_eq_ne in E by done. rewrite strict_eq_refl in E.
    unfold mbind, M_bind in E. rewrite (Hread _ _ Hev) in E.
    fold detail in E. rewrite (Hread _ _ Hdetail) in E.
    unfold uploadFile, perform in E. done.
  - intros H1 H2 H3. by rewrite !strict_eq_ne in E by done.
Qed.

Lemma onPaste_routes_witness :
  nullish (VRef 9) = false ∧
  onPaste (λ _, Some (VRef 2)) (VRef 9) sample_tool =
    Ok ((), with_calls [window_fetch (VStr "blob:http://x/1");
                        uploader_uploadByFile (VRef 2)] sample_tool).
Proof.
  split; [reflexivity|].
  destruct (onPaste_routes (λ _, Some (VRef 2)) (VRef 9) sample_tool eq_refl)
    as [H _].
  destruct (H eq_refl eq_refl eq_refl) as [Hblob _].
  rewrite (Hblob "blob:http://x/1"); [reflexivity|reflexivity|].
  by exists "http://x/1".
Defined.

(** *** Construction *)

Lemma coerce_code given :
  (if defined given
   then strict_eq given (VBool true) || strict_eq given (VStr "true")
   else false) = coerce given.
Proof.
  unfold coerce, defined, strict_eq. rewrite bool_decide_or.
  destruct given; try done.
Qed.

Lemma set_data_tune_run data tune self :
  nullish data = false →
  set_data_tune data tune self =
  setTune (Tune.name tune)
    (VBool (coerce (member (store self) data (Tune.name tune)))) self.
Proof.
  intros Hd. unfold set_data_tune. unfold mbind, M_bind, read.
  rewrite (get_prop_object _ _ _ Hd). by rewrite coerce_code.
Qed.

(** Restoring the tunes of a list with distinct names: each name gets the
    boolean its saved value stands for; nothing else changes. *)
Lemma forEach_set_data_tune data (ts : list Tune.t) self :
  nullish data = false → NoDup (Tune.name <$> ts) →
  ∃ self', forEach ts (set_data_tune data) self = Ok ((), self') ∧
    _data self' = _data self ∧
    (∀ n, n ∈ Tune.name <$> ts →
       data_field self' n = VBool (coerce (member (store self) data n))) ∧
    (∀ o k, k ∉ Tune.name <$> ts →
       member (store self') o k = member (store self) o k) ∧
    (∀ l, l ≠ _data self → store self' !! l = store self !! l) ∧
    (allocated self → allocated self').
Proof.
  intros Hd. revert self.
  induction ts as [|tune ts IH]; intros self Hnd.
  - exists self. repeat split; try done. intros n Hn. by apply elem_of_nil in Hn.
  - rewrite fmap_cons in Hnd. apply NoDup_cons in Hnd as [Hnotin Hnd].
    cbn [forEach]. unfold mbind at 1. unfold M_bind at 1.
    rewrite (set_data_tune_run _ _ _ Hd), setTune_run.
    set (status := VBool (coerce (member (store self) data (Tune.name tune)))).
    set (self1 := with_microtasks _ _).
    destruct (IH self1 Hnd) as (self' & Hrun & Hdata & Hin & Hout & Hloc & Hal).
    exists self'. split; [exact Hrun|]. split; [exact Hdata|].
    assert (Hs1 : store self1 = set_prop (store self) (_data self)
                                  (Tune.name tune) status) by done.
    assert (Hd1 : _data self1 = _data self) by done.
    split; [|split; [|split]].
    + intros n Hn. rewrite fmap_cons in Hn.
      apply elem_of_cons in Hn as [-> |Hn].
      * unfold data_field. rewrite Hdata, Hd1, (Hout _ _ Hnotin), Hs1.
        apply member_set_prop_eq.
      * rewrite (Hin n Hn), Hs1. f_equal. f_equal.
        apply member_set_prop_ne. intros ->. contradiction.
    + intros o k Hk. rewrite fmap_cons in Hk.
      apply not_elem_of_cons in Hk as [Hk1 Hk2].
      rewrite (Hout _ _ Hk2), Hs1. by apply member_set_prop_ne.
    + intros l Hl. rewrite Hloc by by rewrite Hd1.
      rewrite Hs1. by apply lookup_set_prop_ne.
    + intros Ha. apply Hal. unfold allocated. rewrite Hs1, Hd1.
      rewrite lookup_set_prop_eq. eauto.
Qed.

Lemma registry_names_spec n :
  n ∈ registry_names ↔
  n = "withBorder" ∨ n = "stretched" ∨ n = "withBackground".
Proof.
  unfold registry_names. simpl. rewrite !elem_of_cons, elem_of_nil. tauto.
Qed.

Lemma registry_names_NoDup : NoDup registry_names.
Proof.
  unfold registry_names. simpl. repeat constructor;
    rewrite ?elem_of_cons, elem_of_nil; intros H;
    repeat (destruct H as [H|H]; [discriminate|]); done.
Qed.

Lemma set_video_frame file self :
  ∃ self', set_video file self = Ok ((), self') ∧
    _data self' = _data self ∧
    (∀ o k, k ≠ "file" →
       member (store self') o k = member (store self) o k).
Proof.
  rewrite set_video_run. eexists. split; [reflexivity|].
  destruct (truthy file); simpl.
  - destruct (truthy (member _ file "url")); simpl; split; try done;
      intros o k Hk; by apply member_set_prop_ne.
  - split; [done|]. intros o k Hk. rewrite member_set_prop_ne by done.
    apply member_new_empty.
Qed.

(** [set data] on a record: the file is set from [data.file], then the
    caption and the registry tunes are written into the record. *)
Lemma set_data_run data self :
  nullish data = false →
  ∃ self1 self',
    set_video (member (store self) data "file") self = Ok ((), self1) ∧
    set_data data self = Ok ((), self') ∧
    _data self' = _data self ∧
    (∀ n, n ∈ registry_names →
       data_field self' n = VBool (coerce (member (store self) data n))) ∧
    (∀ o k, k ∉ "caption" :: registry_names →
       member (store self') o k = member (store self1) o k) ∧
    (∀ l, l ≠ _data self → store self' !! l = store self1 !! l) ∧
    (allocated self1 → allocated self').
Proof.
  intros Hd.
  destruct (set_video_frame (member (store self) data "file") self)
    as (self1 & Hvideo & Hd1 & Hframe1).
  exists self1. unfold set_data. unfold mbind at 1. unfold M_bind at 1.
  unfold read at 1. rewrite (get_prop_object _ _ _ Hd).
  unfold mbind at 1. unfold M_bind at 1. rewrite Hvideo.
  unfold mbind at 1. unfold M_bind at 1. unfold this at 1.
  unfold mbind at 1. unfold M_bind at 1. unfold read at 1.
  rewrite (get_prop_object _ _ _ Hd).
  unfold mbind at 1. unfold M_bind at 1. unfold write at 1.
  unfold mbind at 1. unfold M_bind at 1. unfold read at 1.
  rewrite get_prop_object by done.
  unfold mbind at 1. unfold M_bind at 1. unfold perform at 1.
  set (caption := if truthy (member (store self1) data "caption")
                  then member (store self1) data "caption" else VStr "").
  set (self2 := with_calls _ _).
  assert (Hs2 : store self2 = set_prop (store self1) (_data self1)
                                "caption" caption) by done.
  assert (Hd2 : _data self2 = _data self1) by done.
  destruct (forEach_set_data_tune data tunes self2 Hd)
    as (self' & Hrun & Hdata & Hin & Hout & Hloc & Hal).
  { apply registry_names_NoDup. }
  exists self'. split; [done|]. split; [exact Hrun|].
  split; [by rewrite Hdata, Hd2|]. split; [|split; [|split]].
  - intros n Hn. rewrite (Hin n Hn), Hs2. f_equal. f_equal.
    apply registry_names_spec in Hn.
    rewrite member_set_prop_ne.
    + apply Hframe1. intros ->. by destruct Hn as [|[|]].
    + intros ->. by destruct Hn as [|[|]].
  - intros o k Hk. apply not_elem_of_cons in Hk as [Hk1 Hk2].
    rewrite (Hout _ _ Hk2), Hs2. by apply member_set_prop_ne.
  - intros l Hl. rewrite Hloc by by rewrite Hd2, Hd1.
    rewrite Hs2. apply lookup_set_prop_ne. by rewrite Hd1.
  - intros Ha. apply Hal. unfold allocated. rewrite Hs2, Hd2.
    rewrite lookup_set_prop_eq. eauto.
Qed.

(** [set data] step by step: after the file is set, the caption and the
    three registry tunes are written and reported to the Ui in that
    order, and one reaction for [stretched] is queued. *)
Lemma set_data_effects data self :
  nullish data = false →
  let cap := if truthy (member (store self) data "caption")
             then member (store self) data "caption" else VStr "" in
  let b n := VBool (coerce (member (store self) data n)) in
  ∃ self1 self',
    set_video (member (store self) data "file") self = Ok ((), self1) ∧
    set_data data self = Ok ((), self') ∧
    _data self' = _data self ∧
    store self' =
      set_prop (set_prop (set_prop (set_prop (store self1)
        (_data self) "caption" cap)
        (_data self) "withBorder" (b "withBorder"))
        (_data self) "stretched" (b "stretched"))
        (_data self) "withBackground" (b "withBackground") ∧
    calls self' =
      calls self1 ++
        [ui_fillCaption cap; ui_applyTune "withBorder" (b "withBorder");
         ui_applyTune "stretched" (b "stretched");
         ui_applyTune "withBackground" (b "withBackground")] ∧
    microtasks self' = microtasks self1 ++ [then_stretched (b "stretched")].
Proof.
  intros Hd cap b.
  destruct (set_video_frame (member (store self) data "file") self)
    as (self1 & Hvideo & Hd1 & Hframe1).
  exists self1. unfold set_data. unfold mbind at 1. unfold M_bind at 1.
  unfold read at 1. rewrite (get_prop_object _ _ _ Hd).
  unfold mbind at 1. unfold M_bind at 1. rewrite Hvideo.
  unfold mbind at 1. unfold M_bind at 1. unfold this at 1.
  unfold mbind at 1. unfold M_bind at 1. unfold read at 1.
  rewrite (get_prop_object _ _ _ Hd).
  unfold mbind at 1. unfold M_bind at 1. unfold write at 1.
  unfold mbind at 1. unfold M_bind at 1. unfold read at 1.
  rewrite get_prop_object by done.
  unfold mbind at 1. unfold M_bind at 1. unfold perform at 1.
  rewrite (Hframe1 data "caption") by done. fold cap.
  cbn [store with_store with_calls calls _data]. rewrite member_set_prop_eq.
  unfold tunes. cbn [forEach]. unfold mbind, M_bind.
  rewrite (set_data_tune_run _ _ _ Hd), setTune_run. cbn [Tune.name].
  rewrite (set_data_tune_run _ _ _ Hd), setTune_run. cbn [Tune.name].
  rewrite (set_data_tune_run _ _ _ Hd), setTune_run. cbn [Tune.name].
  simpl. rewrite !member_set_prop_ne by done.
  rewrite !(Hframe1 data) by done. fold (b "withBorder").
  fold (b "stretched"). fold (b "withBackground").
  eexists. split; [done|]. split; [reflexivity|]. simpl. rewrite Hd1.
  repeat split; rewrite ?app_nil_r, <- ?app_assoc; done.
Qed.

Lemma constructor_run data actions api ro blk ui h :
  constructor data actions api ro blk ui h =
  match set_data data
          {| api := api; readOnly := ro; block := blk;
             config_actions := default [] actions; ui := ui;
             _data := fresh (dom h); store := <[fresh (dom h) := ∅]> h;
             calls := []; microtasks := [] |} with
  | Ok (_, self') => Ok self'
  | Throw e => Throw e
  end.
Proof. reflexivity. Qed.

(** [set data] on a new empty record leaves in it [file], [caption] and
    the registry names, and nothing else. *)
Lemma set_data_new_record data self :
  nullish data = false → store self !! _data self = Some ∅ →
  ∃ self' stored,
    set_data data self = Ok ((), self') ∧ _data self' = _data self ∧
    deref (store self') (_data self) =
      <["withBackground" :=
          VBool (coerce (member (store self) data "withBackground"))]>
      (<["stretched" := VBool (coerce (member (store self) data "stretched"))]>
      (<["withBorder" :=
          VBool (coerce (member (store self) data "withBorder"))]>
      (<["caption" := if truthy (member (store self) data "caption")
                      then member (store self) data "caption" else VStr ""]>
         {["file" := stored]}))).
Proof.
  intros Hd Hnew. set (d := _data self).
  set (file := member (store self) data "file").
  assert (Hvideo : ∃ self1 stored,
            set_video file self = Ok ((), self1) ∧ _data self1 = d ∧
            store self1 !! d = Some {["file" := stored]}).
  { rewrite set_video_run. destruct (truthy file) eqn:Hf.
    - eexists _, file. split; [reflexivity|].
      assert (H : set_prop (store self) d "file" file !! d
                  = Some {["file" := file]}).
      { rewrite lookup_set_prop_eq. unfold deref. fold d in Hnew.
        rewrite Hnew. simpl. by rewrite insert_empty. }
      cbv zeta. fold d.
      by destruct (truthy (member (set_prop (store self) d "file" file)
                             file "url")).
    - set (l := fresh (dom (store self))).
      assert (Hl : store self !! l = None) by apply lookup_fresh_None.
      assert (Hne : d ≠ l) by (intros Heq; unfold d in Heq; congruence).
      eexists _, (VRef l). split; [reflexivity|]. split; [done|].
      simpl. fold d l. rewrite lookup_set_prop_eq. unfold deref.
      rewrite lookup_insert_ne by done. fold d in Hnew. rewrite Hnew.
      simpl. by rewrite insert_empty. }
  destruct Hvideo as (self1 & stored & Hvideo & Hd1 & Hrec).
  destruct (set_data_effects data self Hd)
    as (self1' & self' & Hvideo' & Hrun & Hdata & Hstore & _).
  fold file in Hvideo'. rewrite Hvideo in Hvideo'. injection Hvideo' as <-.
  exists self', stored. split; [done|]. split; [done|].
  rewrite Hstore. fold d.
  repeat (unfold deref; rewrite lookup_set_prop_eq; simpl).
  unfold deref. by rewrite Hrec.
Qed.

(** Construction writes [file], [caption] and the registry names, and
    nothing else. *)
Lemma constructor_writes_no_other_name data actions api ro blk ui h n :
  nullish data = false →
  n ∉ "file" :: "caption" :: registry_names →
  ∃ self, constructor data actions api ro blk ui h = Ok self ∧
    deref (store self) (_data self) !! n = None.
Proof.
  intros Hd Hn. rewrite constructor_run.
  set (self0 := {| api := api; store := _ |}).
  destruct (set_data_new_record data self0 Hd)
    as (self' & stored & Hrun & Hdata & Hrec).
  { simpl. apply lookup_insert_eq. }
  rewrite Hrun. exists self'. split; [done|]. rewrite Hdata, Hrec.
  apply not_elem_of_cons in Hn as [Hfile Hn].
  apply not_elem_of_cons in Hn as [Hcaption Hn].
  rewrite registry_names_spec in Hn.
  rewrite !lookup_insert_ne by (intros <-; tauto).
  apply lookup_singleton_ne. by intros <-.
Qed.

(** C2, as amended: after construction from any input record, every tune
    name of the static registry holds a boolean in the record: false when
    the input has no value under that name, and otherwise true exactly
    when the input value is the boolean true or the string "true".
    Construction writes nothing but [file], [caption] and these names:
    under any other name, the names of configured actions among them, the
    record has no entry, and the name reads as undefined unless it is one
    that every object inherits from [Object.prototype]. *)
Theorem constructor_sets_registry_tunes (data : value)
    (actions : option (list Tune.t)) (api : Api) (ro : bool) (blk : BlockAPI)
    (ui : Ui) (h : gmap loc (gmap string value)) :
  nullish data = false →
  ∃ self, constructor data actions api ro blk ui h = Ok self ∧
    (∀ n, n ∈ registry_names →
      is_boolean (data_field self n) ∧
      data_field self n = VBool (coerce (member h data n)) ∧
      (member h data n = VUndefined → data_field self n = VBool false) ∧
      (data_field self n = VBool true ↔
       member h data n = VBool true ∨ member h data n = VStr "true")) ∧
    (∀ n, n ∉ "file" :: "caption" :: registry_names →
      deref (store self) (_data self) !! n = None ∧
      (n ∉ inherited_names → data_field self n = VUndefined)).
Proof.
  intros Hd. rewrite constructor_run.
  set (self0 := {| api := api; store := _ |}).
  destruct (set_data_run data self0 Hd)
    as (self1 & self' & Hvideo & Hrun & Hdata & Hin & Hout & _).
  rewrite Hrun. exists self'. split; [done|]. split.
  - intros n Hn.
    assert (Hval : data_field self' n = VBool (coerce (member h data n))).
    { rewrite (Hin n Hn). f_equal. f_equal. apply member_new_empty. }
    rewrite Hval. split; [by eexists|]. split; [done|]. split.
    + by intros ->.
    + unfold coerce. split.
      * intros [= H]. by apply bool_decide_eq_true_1 in H.
      * intros H. f_equal. by apply bool_decide_eq_true_2.
  - intros n Hn.
    destruct (constructor_writes_no_other_name data actions api ro blk ui h n
                Hd Hn) as (self'' & Hrun' & Hnone).
    rewrite constructor_run in Hrun'. fold self0 in Hrun'.
    rewrite Hrun in Hrun'. injection Hrun' as <-.
    split; [done|]. intros _. unfold data_field, member.
    by rewrite Hnone.
Qed.

Lemma constructor_sets_registry_tunes_witness :
  nullish (VRef 1) = false ∧
  ∃ self, constructor (VRef 1) None sample_api false accepting_block
            sample_ui sample_store = Ok self ∧
    (∀ n, n ∈ registry_names →
      is_boolean (data_field self n) ∧
      data_field self n = VBool (coerce (member sample_store (VRef 1) n)) ∧
      (member sample_store (VRef 1) n = VUndefined →
       data_field self n = VBool false) ∧
      (data_field self n = VBool true ↔
       member sample_store (VRef 1) n = VBool true ∨
       member sample_store (VRef 1) n = VStr "true")) ∧
    (∀ n, n ∉ "file" :: "caption" :: registry_names →
      deref (store self) (_data self) !! n = None ∧
      (n ∉ inherited_names → data_field self n = VUndefined)).
Proof.
  split; [reflexivity|].
  exact (constructor_sets_registry_tunes (VRef 1) None sample_api false
           accepting_block sample_ui sample_store eq_refl).
Defined.

(** C2, as stated, fails: constructed from the empty record with one
    configured action, the record holds nothing under the name of that
    action. *)
Lemma constructor_leaves_configured_action_undefined :
  ∃ self, constructor (VRef 3) (Some [mirrored_tune]) sample_api false
            accepting_block sample_ui sample_store = Ok self ∧
    data_field self "mirrored" = VUndefined ∧
    ¬ every_tune_boolean (Some [mirrored_tune]) self.
Proof.
  destruct (constructor (VRef 3) (Some [mirrored_tune]) sample_api false
              accepting_block sample_ui sample_store) as [self|e] eqn:E;
    [|by vm_compute in E].
  exists self. split; [done|].
  assert (Hu : data_field self "mirrored" = VUndefined).
  { vm_compute in E. injection E as <-. vm_compute. reflexivity. }
  split; [exact Hu|]. intros H.
  destruct (H "mirrored") as [b Hb]; [|congruence].
  unfold registry_names, action_names. simpl.
  rewrite !elem_of_cons. tauto.
Qed.

(** *** The file field along a run *)

Lemma file_inv_file_ok self :
  file_inv (store self) (_data self) → file_ok self.
Proof.
  intros (_ & (l & o & Hfile & _ & Hl & Ho) & _). by exists l, o.
Qed.

(** The invariant only looks at the file and url fields of the record and
    at the objects that exist. *)
Lemma file_inv_frame h h' d :
  file_inv h d →
  member h' (VRef d) "file" = member h (VRef d) "file" →
  member h' (VRef d) "url" = member h (VRef d) "url" →
  (∀ l o, l ≠ d → h !! l = Some o → h' !! l = Some o) →
  is_Some (h' !! d) →
  file_inv h' d.
Proof.
  intros (_ & (l & o & Hfile & Hne & Hl & Ho) & Hurl) Hf Hu Hframe Hd.
  split; [done|]. split.
  - exists l, o. rewrite Hf. eauto.
  - intros s'. rewrite Hu. apply Hurl.
Qed.

Lemma file_inv_set_prop h d k v :
  file_inv h d → k ≠ "file" → k ≠ "url" → file_inv (set_prop h d k v) d.
Proof.
  intros Hinv Hk1 Hk2. apply (file_inv_frame h); try done.
  - by apply member_set_prop_ne.
  - by apply member_set_prop_ne.
  - intros l o Hl Ho. by rewrite lookup_set_prop_ne.
  - rewrite lookup_set_prop_eq. eauto.
Qed.

(** Documented file data never is the record itself. *)
Lemma payload_not_record h d l o :
  file_inv h d → h !! l = Some o → empty_or_has_url o → l ≠ d.
Proof.
  intros ([od Hod] & (lf & of' & Hfile & _) & Hurl) Hl Ho ->.
  assert (od = o) as -> by congruence.
  unfold member, deref in Hfile, Hurl. rewrite Hl in Hfile, Hurl.
  simpl in Hfile, Hurl. destruct Ho as [-> |(s' & Hs & _)].
  - by rewrite lookup_empty in Hfile.
  - apply (Hurl s'). by rewrite Hs.
Qed.

(** Setting documented file data establishes the invariant. *)
Lemma set_video_establishes file self :
  is_Some (store self !! _data self) →
  (∀ s, data_field self "url" ≠ VStr s) →
  (truthy file = false ∨
   ∃ l o, file = VRef l ∧ l ≠ _data self ∧ store self !! l = Some o ∧
          empty_or_has_url o) →
  ∃ self', set_video file self = Ok ((), self') ∧
    _data self' = _data self ∧
    file_inv (store self') (_data self').
Proof.
  intros Hd Hurl Hfile. rewrite set_video_run. eexists.
  split; [reflexivity|].
  assert (Hgoal : ∀ h l o,
    h = set_prop (store self) (_data self) "file" (VRef l) ∨
    (store self !! l = None ∧
     h = set_prop (<[l := o]> (store self)) (_data self) "file" (VRef l)) →
    l ≠ _data self → h !! l = Some o → empty_or_has_url o →
    file_inv h (_data self)).
  { intros h l o Hh Hne Hl Ho. split; [|split].
    - destruct Hh as [-> |[_ ->]]; rewrite lookup_set_prop_eq; eauto.
    - exists l, o. split; [|done].
      destruct Hh as [-> |[_ ->]]; apply member_set_prop_eq.
    - intros s'. unfold data_field in Hurl.
      destruct Hh as [-> |[Hnone ->]]; rewrite member_set_prop_ne by done.
      + apply Hurl.
      + unfold member, deref. rewrite lookup_insert_ne by done. apply Hurl. }
  destruct (truthy file) eqn:Ht.
  - destruct Hfile as [Hf|(l & o & -> & Hne & Hl & Ho)]; [congruence|].
    assert (Hinv : file_inv (set_prop (store self) (_data self) "file"
                               (VRef l)) (_data self)).
    { apply (Hgoal _ l o); try done; [by left|].
      by rewrite lookup_set_prop_ne. }
    simpl. destruct (truthy (member _ (VRef l) "url")); by simpl.
  - simpl. split; [done|].
    set (l := fresh (dom (store self))).
    assert (Hnone : store self !! l = None) by apply lookup_fresh_None.
    assert (Hne : l ≠ _data self).
    { intros Heq. destruct Hd as [o Ho]. rewrite <- Heq in Ho. congruence. }
    apply (Hgoal _ l ∅); try done.
    + by right.
    + rewrite lookup_set_prop_ne by done. apply lookup_insert_eq.
    + by left.
Qed.

Lemma set_video_keeps_inv file self :
  file_inv (store self) (_data self) →
  payload_ok (store self) file →
  ∃ self', set_video file self = Ok ((), self') ∧
    _data self' = _data self ∧
    file_inv (store self') (_data self').
Proof.
  intros Hinv Hfile. apply set_video_establishes.
  - apply Hinv.
  - apply Hinv.
  - destruct Hfile as [Hf|(l & o & -> & Hl & Ho)]; [by left|right].
    exists l, o. repeat split; try done.
    by apply (payload_not_record (store self) _ l o).
Qed.

Lemma tuneToggled_run n self :
  tuneToggled n self =
  setTune n (VBool (negb (truthy (data_field self n)))) self.
Proof.
  unfold tuneToggled, mbind, M_bind, this, read.
  by rewrite get_prop_object.
Qed.

(** Every operation keeps the invariant. *)
Lemma exec_keeps_inv o self :
  file_inv (store self) (_data self) → op_ok o self →
  file_inv (store (exec o self)) (_data (exec o self)).
Proof.
  intros Hinv Hok. unfold exec.
  destruct o as [obj|response|file|error| |tuneName|]; cbn [step].
  - rewrite alloc_eq. cbn [snd]. pose proof Hinv as (Hd & _).
    assert (Hne : ∀ l o, store self !! l = Some o →
                         l ≠ fresh (dom (store self))).
    { intros l o Hl ->. by rewrite lookup_fresh_None in Hl. }
    destruct Hd as [od Hod].
    assert (Hfd : fresh (dom (store self)) ≠ _data self).
    { intros Heq. by apply (Hne _ _ Hod). }
    cbn [store _data with_store].
    apply (file_inv_frame (store self)); try done.
    + unfold member, deref. by rewrite lookup_insert_ne.
    + unfold member, deref. by rewrite lookup_insert_ne.
    + intros l o Hl Ho. rewrite lookup_insert_ne; [done|].
      intros Heq. by apply (Hne l o).
    + rewrite lookup_insert_ne; eauto.
  - destruct (nullish response) eqn:Hn.
    + by rewrite onUpload_nullish.
    + rewrite (onUpload_run _ _ Hn). cbn [op_ok] in Hok.
      destruct (truthy (member (store self) response "success")) eqn:Hs;
        cbn [andb].
      * destruct (truthy (member (store self) response "file")) eqn:Hf.
        -- destruct (set_video_keeps_inv _ self Hinv (Hok eq_refl))
             as (self' & -> & _ & Hinv'). done.
        -- destruct (serialisable (store self) response); [|done].
           by rewrite uploadingFailed_run.
      * destruct (serialisable (store self) response); [|done].
        by rewrite uploadingFailed_run.
  - destruct (set_video_keeps_inv _ self Hinv Hok)
      as (self' & -> & _ & Hinv'). done.
  - by rewrite uploadingFailed_run.
  - unfold save, get_data. unfold_M. simpl.
    by apply file_inv_set_prop.
  - destruct Hok as [Hk1 Hk2]. rewrite tuneToggled_run, setTune_run.
    simpl. by apply file_inv_set_prop.
  - unfold microtask. destruct (microtasks self) as [|j q]; [done|].
    destruct (run_job_quiet j (with_microtasks q self))
      as (self' & -> & Hs & Hd & _). by rewrite Hs, Hd.
Qed.

Lemma run_keeps_inv ops self :
  file_inv (store self) (_data self) → all_ok ops self →
  file_inv (store (run ops self)) (_data (run ops self)).
Proof.
  revert self. induction ops as [|o ops IH]; intros self Hinv Hok; [done|].
  destruct Hok as [Ho Hops]. simpl. apply IH; [|done].
  by apply exec_keeps_inv.
Qed.

(** Construction from a record with documented file data establishes
    the invariant. *)
Lemma constructor_establishes_inv data actions api ro blk ui h :
  nullish data = false → payload_ok h (member h data "file") →
  ∃ self, constructor data actions api ro blk ui h = Ok self ∧
    file_inv (store self) (_data self).
Proof.
  intros Hd Hfile. rewrite constructor_run.
  set (d := fresh (dom h)).
  set (self0 := {| api := api; store := _ |}).
  destruct (set_data_run data self0 Hd)
    as (self1 & self' & Hvideo & Hrun & Hdata & _ & Hout & Hloc & Hal).
  rewrite Hrun. exists self'. split; [done|].
  assert (Hnone : h !! d = None) by apply lookup_fresh_None.
  destruct (set_video_establishes (member (store self0) data "file") self0)
    as (self1' & Hvideo' & Hd1 & Hinv1).
  - simpl. rewrite lookup_insert_eq. eauto.
  - intros s'. unfold data_field, member, deref. simpl.
    rewrite lookup_insert_eq. simpl. by rewrite lookup_empty.
  - simpl. unfold d. rewrite member_new_empty. fold d.
    destruct Hfile as [Hf|(l & o & Hl & Hlo & Ho)]; [by left|right].
    exists l, o. repeat split; try done.
    + intros ->. fold d in Hnone. congruence.
    + rewrite lookup_insert_ne; [done|]. intros <-. congruence.
  - rewrite Hvideo in Hvideo'. injection Hvideo' as <-.
    rewrite Hdata. change (_data self0) with d in *. rewrite Hd1 in Hinv1.
    apply (file_inv_frame (store self1)); try done.
    + apply Hout. rewrite elem_of_cons, registry_names_spec.
      intros [|[|[|]]]; discriminate.
    + apply Hout. rewrite elem_of_cons, registry_names_spec.
      intros [|[|[|]]]; discriminate.
    + intros l o Hl Ho. by rewrite Hloc.
    + rewrite <- Hdata. apply Hal. unfold allocated. rewrite Hd1.
      apply Hinv1.
Qed.

(** C3, as amended: construct the tool from any input record whose file
    data is absent, an empty object or an object with a non-empty string
    url, and then let the Uploader report responses and errors, file data
    be set, the editor save, tunes be toggled and promise reactions run,
    in any order and number, as long as the file data of every successful
    response and of every file setting is of that kind too.  In every
    state so reached the file field of the record is an empty object or
    an object with a non-empty string url. *)
Theorem file_field_empty_or_has_url (data : value)
    (actions : option (list Tune.t)) (api : Api) (ro : bool) (blk : BlockAPI)
    (ui : Ui) (h : gmap loc (gmap string value)) :
  nullish data = false →
  payload_ok h (member h data "file") →
  ∃ self, constructor data actions api ro blk ui h = Ok self ∧
    ∀ ops, all_ok ops self → file_ok (run ops self).
Proof.
  intros Hd Hfile.
  destruct (constructor_establishes_inv data actions api ro blk ui h Hd Hfile)
    as (self & Hrun & Hinv).
  exists self. split; [done|]. intros ops Hops.
  apply file_inv_file_ok. by apply run_keeps_inv.
Qed.

Lemma file_field_empty_or_has_url_witness :
  nullish (VRef 1) = false ∧
  payload_ok sample_store (member sample_store (VRef 1) "file") ∧
  ∃ self, constructor (VRef 1) None sample_api false accepting_block
            sample_ui sample_store = Ok self ∧
    ∀ ops, all_ok ops self → file_ok (run ops self).
Proof.
  assert (H : payload_ok sample_store (member sample_store (VRef 1) "file")).
  { right. exists 2, {["url" := VStr "http://x/v.mp4"]}.
    split; [vm_compute; reflexivity|]. split; [vm_compute; reflexivity|].
    right. exists "http://x/v.mp4". split; [vm_compute; reflexivity|done]. }
  split; [reflexivity|]. split; [exact H|].
  exact (file_field_empty_or_has_url (VRef 1) None sample_api false
           accepting_block sample_ui sample_store eq_refl H).
Defined.

Lemma nameless_file_not_ok :
  ¬ empty_or_has_url {["name" := VStr "clip.mp4"]}.
Proof.
  intros [Hempty|(s & Hs & _)].
  - apply (f_equal (λ m, m !! "name")) in Hempty. by vm_compute in Hempty.
  - by vm_compute in Hs.
Qed.

(** An operation throws only when a response is reported that is
    undefined or null, or that cannot be serialised; nothing has been
    written by then. *)
Lemma step_throws o self e :
  step o self = Throw e →
  ∃ response, o = host_onUpload response ∧
    (nullish response = true ∨ serialisable (store self) response = false).
Proof.
  destruct o as [obj|response|file|error| |tuneName|]; cbn [step].
  - done.
  - destruct (nullish response) eqn:Hn; [eauto|].
    rewrite (onUpload_run _ _ Hn).
    destruct (_ && _); [by rewrite set_video_run|].
    destruct (serialisable (store self) response) eqn:Hs; [|eauto].
    by rewrite uploadingFailed_run.
  - by rewrite set_video_run.
  - by rewrite uploadingFailed_run.
  - done.
  - by rewrite tuneToggled_run, setTune_run.
  - unfold microtask. destruct (microtasks self) as [|j q]; [done|].
    by destruct (run_job_quiet j (with_microtasks q self)) as (? & -> & _).
Qed.

(** C3, as stated, fails: after construction from the empty record, the
    completion of an upload whose response is
    [{success: 1, file: {name: "clip.mp4"}}] leaves in the file field an
    object that is not empty and has no url. *)
Lemma file_field_without_url_after_upload :
  ∃ self, constructor (VRef 1) None sample_api false accepting_block
            sample_ui store_with_nameless_file = Ok self ∧
    data_field (run [host_onUpload (VRef 2)] self) "file" = VRef 3 ∧
    store (run [host_onUpload (VRef 2)] self) !! 3
      = Some {["name" := VStr "clip.mp4"]} ∧
    ¬ file_ok (run [host_onUpload (VRef 2)] self).
Proof.
  destruct (constructor (VRef 1) None sample_api false accepting_block
              sample_ui store_with_nameless_file) as [self|e] eqn:E;
    [|by vm_compute in E].
  exists self. split; [done|].
  vm_compute in E. injection E as <-.
  set (final := run _ _).
  assert (H1 : data_field final "file" = VRef 3)
    by (vm_compute; reflexivity).
  assert (H2 : store final !! 3 = Some {["name" := VStr "clip.mp4"]})
    by (vm_compute; reflexivity).
  split; [exact H1|]. split; [exact H2|].
  intros (l & o & Hl & Ho & Hshape).
  rewrite H1 in Hl. injection Hl as Hl. subst l.
  pose proof (eq_trans (eq_sym Ho) H2) as Heq. injection Heq as Heq.
  subst o. by apply nameless_file_not_ok.
Qed.

(** ** Further properties of the tool *)

(** *** validate *)

(** X1: [validate] throws a TypeError exactly when the saved data is
    undefined or null; on every other value, primitives included, it
    returns without throwing. *)
Theorem validate_throws_iff_no_record (h : gmap loc (gmap string value))
    (savedData : value) :
  (validate h savedData = Throw TypeError ↔ nullish savedData = true) ∧
  ((∃ v, validate h savedData = Ok v) ↔ nullish savedData = false).
Proof.
  destruct (nullish savedData) eqn:Hn.
  - assert (H : validate h savedData = Throw TypeError).
    { unfold validate, get_prop. by rewrite Hn. }
    rewrite H. split; [done|]. split; [|done]. by intros [v Hv].
  - destruct (validate_truthiness h savedData Hn) as (v & Hv & _).
    rewrite Hv. split; [done|]. split; [done|]. eauto.
Qed.

(** X2: saving and then validating the saved record never throws, and the
    result is truthy exactly when the url of the file field was truthy
    before the save: the caption plays no part. *)
Theorem save_then_validate (self : tool) :
  ∃ saved self' v,
    save self = Ok (saved, self') ∧
    validate (store self') saved = Ok v ∧
    truthy v = truthy (file_url self).
Proof.
  unfold save, get_data. unfold_M. simpl. eexists _, _.
  set (h := set_prop _ _ _ _).
  destruct (validate_truthiness h (VRef (_data self)) eq_refl)
    as (v & Hv & Ht).
  exists v. split; [reflexivity|]. split; [exact Hv|]. rewrite Ht.
  unfold file_url, data_field, h. by rewrite !member_set_prop_ne.
Qed.

(** *** Errors at the entry points *)

(** X3: the setter of the block data throws a TypeError exactly when the
    data it is given is undefined or null; any other data, primitives
    included, is taken without throwing. *)
Theorem set_data_throws_iff_no_data (data : value) (self : tool) :
  (set_data data self = Throw TypeError ↔ nullish data = true) ∧
  ((∃ self', set_data data self = Ok ((), self')) ↔ nullish data = false).
Proof.
  destruct (nullish data) eqn:Hn.
  - assert (H : set_data data self = Throw TypeError).
    { unfold set_data, mbind, M_bind, read, get_prop. by rewrite Hn. }
    rewrite H. split; [done|]. split; [|done]. by intros [v Hv].
  - destruct (set_data_run data self Hn) as (? & self' & _ & -> & _).
    split; [done|]. split; [done|]. eauto.
Qed.


(** *** Tunes *)

Lemma tuneToggled_once n self :
  ∃ once, tuneToggled n self = Ok ((), once) ∧
    data_field once n = VBool (negb (truthy (data_field self n))).
Proof.
  rewrite tuneToggled_run, setTune_run. eexists.
  split; [reflexivity|]. unfold data_field at 1. simpl.
  apply member_set_prop_eq.
Qed.

(** X5: toggling a tune whose name is not one that every object
    inherits from [Object.prototype] never throws and stores the negation
    of the truthiness of what was stored, so a tune that was never set
    becomes true; toggling twice stores the truthiness itself. *)
Theorem tuneToggled_negates (n : string) (self : tool) :
  n ∉ inherited_names →
  (∃ once, tuneToggled n self = Ok ((), once) ∧
     data_field once n = VBool (negb (truthy (data_field self n)))) ∧
  (∃ twice, (tuneToggled n;; tuneToggled n) self = Ok ((), twice) ∧
     data_field twice n = VBool (truthy (data_field self n))) ∧
  (deref (store self) (_data self) !! n = None →
   ∃ once, tuneToggled n self = Ok ((), once) ∧
     data_field once n = VBool true).
Proof.
  intros _. split; [apply tuneToggled_once|].
  destruct (tuneToggled_once n self) as (once & H1 & H1').
  destruct (tuneToggled_once n once) as (twice & H2 & H2').
  split.
  - exists twice. unfold mbind, M_bind. rewrite H1. split; [exact H2|].
    rewrite H2', H1'. simpl. by rewrite negb_involutive.
  - intros Hnone. exists once. split; [done|]. rewrite H1'.
    unfold data_field, member. by rewrite Hnone.
Qed.

Lemma tuneToggled_negates_witness :
  ("mirrored" ∉ inherited_names) ∧
  ∃ once, tuneToggled "mirrored" sample_tool = Ok ((), once) ∧
    data_field once "mirrored" = VBool true.
Proof.
  assert (H : "mirrored" ∉ inherited_names).
  { apply (bool_decide_unpack _). vm_compute. exact I. }
  split; [exact H|].
  destruct (tuneToggled_negates "mirrored" sample_tool H) as (_ & _ & H3).
  apply H3. vm_compute. reflexivity.
Defined.

(** X6: setting a tune other than [stretched] (and not called
    [__proto__], which names no field) stays local: the value is stored
    under its name, the Ui is told once, nothing is queued for the block,
    and no other field of the record and no other object changes. *)
Theorem setTune_other_than_stretched (n : string) (v : value) (self : tool) :
  n ≠ "stretched" → n ≠ "__proto__" →
  ∃ self', setTune n v self = Ok ((), self') ∧
    data_field self' n = v ∧
    calls self' = calls self ++ [ui_applyTune n v] ∧
    microtasks self' = microtasks self ∧
    (∀ o k, k ≠ n → member (store self') o k = member (store self) o k) ∧
    (∀ l, l ≠ _data self → store self' !! l = store self !! l).
Proof.
  intros Hn _. rewrite setTune_run. eexists. split; [reflexivity|].
  apply String.eqb_neq in Hn. rewrite Hn. unfold data_field. simpl.
  rewrite app_nil_r. repeat split.
  - apply member_set_prop_eq.
  - intros o k Hk. by apply member_set_prop_ne.
  - intros l Hl. by apply lookup_set_prop_ne.
Qed.

Lemma setTune_other_than_stretched_witness :
  "withBorder" ≠ "stretched" ∧ "withBorder" ≠ "__proto__" ∧
  ∃ self', setTune "withBorder" (VBool true) sample_tool = Ok ((), self') ∧
    data_field self' "withBorder" = VBool true ∧
    microtasks self' = [].
Proof.
  assert (H : "withBorder" ≠ "stretched") by discriminate.
  assert (H' : "withBorder" ≠ "__proto__") by discriminate.
  split; [exact H|]. split; [exact H'|].
  destruct (setTune_other_than_stretched "withBorder" (VBool true)
              sample_tool H H') as (self' & H1 & H2 & _ & H3 & _).
  exists self'. repeat split; [exact H1|exact H2|exact H3].
Defined.

(** *** Saving *)

Lemma set_prop_twice h l k v :
  set_prop (set_prop h l k v) l k v = set_prop h l k v.
Proof.
  unfold set_prop at 1. unfold deref. rewrite lookup_set_prop_eq. simpl.
  unfold set_prop. by rewrite insert_insert_eq, insert_insert_eq.
Qed.

(** X7: saving twice in a row is the same as saving once: the same
    reference is returned and the tool ends in the same state. *)
Theorem save_twice (self : tool) :
  (save;; save) self = save self.
Proof.
  unfold save, get_data. unfold_M. simpl. unfold with_store. simpl.
  by rewrite set_prop_twice.
Qed.

(** *** What construction leaves behind *)

(** X8: construction from any record tells the Ui, in this order, the
    video url (only when the input has file data with a truthy url), the
    caption, and the three registry tunes with their restored booleans;
    and it queues exactly one reaction, which carries the restored
    [stretched] value to the block. *)
Theorem constructor_calls (data : value) (actions : option (list Tune.t))
    (api : Api) (ro : bool) (blk : BlockAPI) (ui : Ui)
    (h : gmap loc (gmap string value)) :
  nullish data = false →
  let file := member h data "file" in
  let cap := if truthy (member h data "caption")
             then member h data "caption" else VStr "" in
  let b n := VBool (coerce (member h data n)) in
  ∃ self, constructor data actions api ro blk ui h = Ok self ∧
    calls self =
      (if truthy file && truthy (member h file "url")
       then [ui_fillVideo (member h file "url")] else []) ++
      [ui_fillCaption cap; ui_applyTune "withBorder" (b "withBorder");
       ui_applyTune "stretched" (b "stretched");
       ui_applyTune "withBackground" (b "withBackground")] ∧
    microtasks self = [then_stretched (b "stretched")].
Proof.
  intros Hd file cap b. rewrite constructor_run.
  set (self0 := {| api := api; store := _ |}).
  destruct (set_data_effects data self0 Hd)
    as (self1 & self' & Hvideo & Hrun & _ & _ & Hcalls & Hq).
  rewrite Hrun. exists self'. split; [done|].
  assert (Hm : ∀ o k, member (store self0) o k = member h o k)
    by (intros; apply member_new_empty).
  rewrite !Hm in Hcalls. rewrite !Hm in Hq. rewrite Hm in Hvideo.
  fold file in Hvideo.
  assert (H1 : calls self1 =
            (if truthy file && truthy (member h file "url")
             then [ui_fillVideo (member h file "url")] else []) ∧
          microtasks self1 = []).
  { rewrite set_video_run in Hvideo. injection Hvideo as <-.
    destruct (truthy file) eqn:Hf; simpl; [|done].
    rewrite member_set_prop_ne by done. rewrite Hm.
    by destruct (truthy (member h file "url")). }
  destruct H1 as [Hc1 Hq1]. by rewrite Hcalls, Hq, Hc1, Hq1.
Qed.

Lemma constructor_calls_witness :
  nullish (VRef 1) = false ∧
  ∃ self, constructor (VRef 1) None sample_api false accepting_block
            sample_ui sample_store = Ok self ∧
    calls self =
      [ui_fillVideo (VStr "http://x/v.mp4"); ui_fillCaption (VStr "");
       ui_applyTune "withBorder" (VBool false);
       ui_applyTune "stretched" (VBool false);
       ui_applyTune "withBackground" (VBool false)] ∧
    microtasks self = [then_stretched (VBool false)].
Proof.
  split; [reflexivity|].
  destruct (constructor_calls (VRef 1) None sample_api false accepting_block
              sample_ui sample_store eq_refl) as (self & H1 & H2 & H3).
  exists self. split; [exact H1|]. split.
  - rewrite H2. vm_compute. reflexivity.
  - rewrite H3. vm_compute. reflexivity.
Defined.

(** X9: after construction from any record, the record of the tool has
    exactly the five fields [file], [caption], [withBorder], [stretched]
    and [withBackground]; its caption is the input caption when that is
    truthy and the empty string otherwise, so never undefined or null;
    and its file is the input file data when truthy and a new empty
    object otherwise. *)
Theorem constructor_record (data : value) (actions : option (list Tune.t))
    (api : Api) (ro : bool) (blk : BlockAPI) (ui : Ui)
    (h : gmap loc (gmap string value)) :
  nullish data = false →
  let file := member h data "file" in
  ∃ self, constructor data actions api ro blk ui h = Ok self ∧
    h !! _data self = None ∧
    dom (deref (store self) (_data self)) =
      list_to_set ["file"; "caption"; "withBorder"; "stretched";
                   "withBackground"] ∧
    data_field self "caption" =
      (if truthy (member h data "caption")
       then member h data "caption" else VStr "") ∧
    nullish (data_field self "caption") = false ∧
    (if truthy file then data_field self "file" = file
     else ∃ l, data_field self "file" = VRef l ∧ h !! l = None ∧
               store self !! l = Some ∅).
Proof.
  intros Hd file. rewrite constructor_run.
  set (d := fresh (dom h)).
  set (self0 := {| api := api; store := _ |}).
  destruct (set_data_effects data self0 Hd)
    as (self1 & self' & Hvideo & Hrun & Hdata & Hstore & _ & _).
  rewrite Hrun. exists self'. split; [done|].
  assert (Hm : ∀ o k, member (store self0) o k = member h o k)
    by (intros; apply member_new_empty).
  rewrite !Hm in Hstore. rewrite Hm in Hvideo. fold file in Hvideo.
  change (_data self0) with d in *. rewrite Hdata.
  assert (Hnone : h !! d = None) by apply lookup_fresh_None.
  split; [done|].
  set (cap := if truthy (member h data "caption")
              then member h data "caption" else VStr "") in *.
  assert (Hcap : nullish cap = false).
  { unfold cap. destruct (truthy (member h data "caption")) eqn:Hc; [|done].
    by apply truthy_not_nullish. }
  assert (Hrec : ∃ stored, store self1 !! d = Some {["file" := stored]} ∧
            (if truthy file then stored = file
             else ∃ l, stored = VRef l ∧ l ≠ d ∧ h !! l = None ∧
                       store self1 !! l = Some ∅)).
  { rewrite set_video_run in Hvideo. injection Hvideo as <-.
    destruct (truthy file) eqn:Hf.
    - exists file. split; [|done].
      assert (store (with_store (set_prop (store self0) d "file" file) self0)
                !! d = Some {["file" := file]}) as Hgoal.
      { simpl. rewrite lookup_set_prop_eq. unfold deref.
        rewrite lookup_insert_eq. simpl. by rewrite insert_empty. }
      simpl in *. by destruct (truthy (member _ file "url")).
    - simpl. set (l := fresh (dom (<[d:=∅]> h))).
      assert (Hl : (<[d:=∅]> h) !! l = None) by apply lookup_fresh_None.
      assert (Hne : l ≠ d).
      { intros Heq. rewrite Heq, lookup_insert_eq in Hl. done. }
      exists (VRef l). split.
      + rewrite lookup_set_prop_eq. unfold deref.
        rewrite lookup_insert_ne by done. rewrite lookup_insert_eq. simpl.
        by rewrite insert_empty.
      + exists l. repeat split; try done.
        * by rewrite lookup_insert_ne in Hl.
        * rewrite lookup_set_prop_ne by done. apply lookup_insert_eq. }
  destruct Hrec as (stored & Hrec & Hstored).
  assert (Hderef : deref (store self') d =
            <["withBackground" := VBool (coerce (member h data "withBackground"))]>
            (<["stretched" := VBool (coerce (member h data "stretched"))]>
            (<["withBorder" := VBool (coerce (member h data "withBorder"))]>
            (<["caption" := cap]> {["file" := stored]})))).
  { rewrite Hstore.
    repeat (unfold deref; rewrite lookup_set_prop_eq; simpl).
    unfold deref. by rewrite Hrec. }
  assert (Hfield : ∀ k, data_field self' k =
            default VUndefined (deref (store self') d !! k)).
  { intros k. unfold data_field, member. by rewrite Hdata. }
  split; [|split; [|split]].
  - rewrite Hderef. rewrite !dom_insert_L, dom_singleton_L.
    apply set_eq. intros x. simpl.
    rewrite !elem_of_union, !elem_of_singleton, elem_of_empty. tauto.
  - rewrite Hfield, Hderef. rewrite !lookup_insert_ne by done.
    by rewrite lookup_insert_eq.
  - rewrite Hfield, Hderef. rewrite !lookup_insert_ne by done.
    by rewrite lookup_insert_eq.
  - assert (Hf' : data_field self' "file" = stored).
    { rewrite Hfield, Hderef. rewrite !lookup_insert_ne by done.
      by rewrite lookup_singleton_eq. }
    rewrite Hf'. destruct (truthy file); [done|].
    destruct Hstored as (l & -> & Hne & Hl & Hl1). exists l.
    repeat split; try done. rewrite Hstore.
    by rewrite !lookup_set_prop_ne.
Qed.

Lemma constructor_record_witness :
  nullish (VRef 3) = false ∧
  ∃ self, constructor (VRef 3) None sample_api false accepting_block
            sample_ui sample_store = Ok self ∧
    data_field self "caption" = VStr "" ∧
    ∃ l, data_field self "file" = VRef l ∧ store self !! l = Some ∅.
Proof.
  split; [reflexivity|].
  destruct (constructor_record (VRef 3) None sample_api false accepting_block
              sample_ui sample_store eq_refl)
    as (self & H1 & _ & _ & H2 & _ & l & H3 & _ & H4).
  exists self. split; [exact H1|]. split; [exact H2|].
  exists l. split; [exact H3|exact H4].
Defined.

(** *** The settings menu *)

Lemma mapM_read data (ts : list Tune.t) self :
  nullish data = false →
  mapM (λ tune, read data (Tune.name tune)) ts self =
  Ok ((λ tune, member (store self) data (Tune.name tune)) <$> ts, self).
Proof.
  intros Hd. induction ts as [|tune ts IH]; [done|].
  cbn [mapM]. unfold mbind at 1. unfold M_bind at 1. unfold read at 1.
  rewrite (get_prop_object _ _ _ Hd).
  unfold mbind at 1. unfold M_bind at 1.
  change ((fix go (l : list Tune.t) : M (list value) := _) ts)
    with (mapM (λ tune, read data (Tune.name tune)) ts).
  by rewrite IH.
Qed.

Lemma zip_with_fmap_same {A B C} (g : A → B → C) (f : A → B) (l : list A) :
  zip_with g l (f <$> l) = (λ x, g x (f x)) <$> l.
Proof. induction l as [|x l IH]; simpl; [done|]. by f_equal. Qed.

Lemma renderSettings_run self :
  renderSettings self =
  Ok ((λ tune,
         {| Setting.icon := Tune.icon tune;
            Setting.label := i18n_t (api self) (Tune.title tune);
            Setting.name := Tune.name tune;
            Setting.toggle := Tune.toggle tune;
            Setting.isActive := data_field self (Tune.name tune);
            Setting.onActivate :=
              match Tune.action tune with
              | Some callback =>
                  perform (tune_action callback (Tune.name tune))
              | None => tuneToggled (Tune.name tune)
              end |}) <$> (tunes ++ config_actions self), self).
Proof.
  unfold renderSettings, get_data. unfold mbind at 1. unfold M_bind at 1.
  unfold this at 1. unfold mbind at 1. unfold M_bind at 1.
  unfold mbind at 1. unfold M_bind at 1. unfold this at 1.
  unfold mret at 1. unfold M_ret at 1.
  unfold mbind at 1. unfold M_bind at 1.
  rewrite mapM_read by done. unfold mret, M_ret.
  by rewrite zip_with_fmap_same.
Qed.

(** X11: [renderSettings] never throws and changes nothing, and the
    settings it returns act as follows when activated, in whatever state
    the tool is by then.  For a tune with a callback of its own only that
    callback is called, with the name of the tune: the record, the Ui and
    the queue are left alone.  For any other tune, if its name is not one
    that every object inherits from [Object.prototype], the stored value
    is replaced by the negation of its truthiness. *)
Theorem renderSettings_activation (self : tool) :
  ∃ settings, renderSettings self = Ok (settings, self) ∧
    Forall2 (λ tune setting, ∀ now,
      match Tune.action tune with
      | Some callback =>
          Setting.onActivate setting now =
            Ok ((), with_calls
                      (calls now ++ [tune_action callback (Tune.name tune)])
                      now)
      | None =>
          Tune.name tune ∉ inherited_names →
          ∃ next, Setting.onActivate setting now = Ok ((), next) ∧
            data_field next (Tune.name tune) =
              VBool (negb (truthy (data_field now (Tune.name tune))))
      end) (tunes ++ config_actions self) settings.
Proof.
  rewrite renderSettings_run. eexists. split; [reflexivity|].
  apply Forall2_fmap_r, Forall_Forall2_diag, Forall_true.
  intros tune now. simpl. destruct (Tune.action tune) as [callback|].
  - done.
  - intros _. apply tuneToggled_once.
Qed.

(** *** The record along any run *)

Lemma exec_object obj self :
  exec (host_object obj) self =
  with_store (<[fresh (dom (store self)) := obj]> (store self)) self.
Proof. reflexivity. Qed.

Lemma exec_onUpload response self :
  exec (host_onUpload response) self =
  if truthy (member (store self) response "success") &&
     truthy (member (store self) response "file")
  then exec (host_set_video (member (store self) response "file")) self
  else if nullish response || negb (serialisable (store self) response)
  then self
  else with_calls
         (calls self ++
            [console_log "Video Tool: uploading failed because of"
               (Concat "incorrect response: " (JSON_stringify response));
             notifier_show
               (i18n_t (api self) "Couldn’t upload video. Please try another.")
               "error";
             ui_hidePreloader]) self.
Proof.
  unfold exec. cbn [step]. destruct (nullish response) eqn:Hn.
  - rewrite (onUpload_nullish _ _ Hn). by destruct response.
  - rewrite (onUpload_run _ _ Hn). destruct (_ && _); [done|].
    destruct (serialisable (store self) response); [|done].
    by rewrite uploadingFailed_run.
Qed.

Lemma exec_set_video file self :
  exec (host_set_video file) self =
  if truthy file then
    let h := set_prop (store self) (_data self) "file" file in
    if truthy (member h file "url")
    then with_calls (calls self ++ [ui_fillVideo (member h file "url")])
           (with_store h self)
    else with_store h self
  else
    let l := fresh (dom (store self)) in
    with_store
      (set_prop (<[l := ∅]> (store self)) (_data self) "file" (VRef l)) self.
Proof. unfold exec. cbn [step]. by rewrite set_video_run. Qed.

Lemma exec_save self :
  exec host_save self =
  with_store (set_prop (store self) (_data self) "caption"
                (VStr (nodes_caption_innerHTML (ui self)))) self.
Proof. reflexivity. Qed.

Lemma exec_tuneToggled n self :
  exec (host_tuneToggled n) self =
  let v := VBool (negb (truthy (data_field self n))) in
  with_microtasks
    (microtasks self ++
       (if String.eqb n "stretched" then [then_stretched v] else []))
    (with_calls (calls self ++ [ui_applyTune n v])
       (with_store (set_prop (store self) (_data self) n v) self)).
Proof. unfold exec. cbn [step]. by rewrite tuneToggled_run, setTune_run. Qed.

Lemma exec_microtask self :
  exec host_microtask self =
  match microtasks self with
  | [] => self
  | then_stretched status :: q =>
      with_microtasks
        (q ++ match stretched_set (block self) status with
              | None => []
              | Some err => [catch_error err]
              end)
        (with_calls (calls self ++ [block_stretched status])
           (with_microtasks q self))
  | catch_error err :: q =>
      with_calls (calls self ++ [console_error err]) (with_microtasks q self)
  end.
Proof.
  unfold exec. cbn [step]. unfold microtask.
  destruct (microtasks self) as [|[status|err] q]; [done| |done].
  by rewrite run_job_then.
Qed.

Lemma allocated_set_prop h d k v : is_Some (set_prop h d k v !! d).
Proof. rewrite lookup_set_prop_eq. eauto. Qed.

(** Every operation keeps the record where it is and only adds to the
    log. *)
Lemma exec_keeps_record o self :
  allocated self →
  allocated (exec o self) ∧ _data (exec o self) = _data self ∧
  ∃ more, calls (exec o self) = calls self ++ more.
Proof.
  intros Ha.
  assert (Hvideo : ∀ file,
    allocated (exec (host_set_video file) self) ∧
    _data (exec (host_set_video file) self) = _data self ∧
    ∃ more, calls (exec (host_set_video file) self) = calls self ++ more).
  { intros file. rewrite exec_set_video. unfold allocated.
    destruct (truthy file); simpl.
    - destruct (truthy (member _ file "url")); simpl;
        (split; [apply allocated_set_prop|]); (split; [done|]).
      + eauto.
      + exists []. by rewrite app_nil_r.
    - split; [apply allocated_set_prop|]. split; [done|].
      exists []. by rewrite app_nil_r. }
  assert (Hfail : ∀ e,
    allocated (exec (host_onError e) self) ∧
    _data (exec (host_onError e) self) = _data self ∧
    ∃ more, calls (exec (host_onError e) self) = calls self ++ more).
  { intros e. unfold exec. cbn [step]. rewrite uploadingFailed_run. simpl.
    split; [done|]. split; [done|]. eauto. }
  destruct o as [obj|response|file|error| |tuneName|].
  - rewrite exec_object. unfold allocated. simpl. split; [|split; [done|]].
    + rewrite lookup_insert_ne; [done|]. intros Heq. destruct Ha as [o Ho].
      rewrite <- Heq, lookup_fresh_None in Ho. done.
    + exists []. by rewrite app_nil_r.
  - rewrite exec_onUpload. destruct (_ && _); [apply Hvideo|].
    destruct (_ || _); simpl; (split; [done|]); (split; [done|]).
    + exists []. by rewrite app_nil_r.
    + eauto.
  - apply Hvideo.
  - apply Hfail.
  - rewrite exec_save. unfold allocated. simpl.
    split; [apply allocated_set_prop|]. split; [done|].
    exists []. by rewrite app_nil_r.
  - rewrite exec_tuneToggled. unfold allocated. simpl.
    split; [apply allocated_set_prop|]. split; [done|]. eauto.
  - rewrite exec_microtask.
    destruct (microtasks self) as [|[status|err] q]; simpl.
    + split; [done|]. split; [done|]. exists []. by rewrite app_nil_r.
    + split; [done|]. split; [done|]. eauto.
    + split; [done|]. split; [done|]. eauto.
Qed.

Lemma constructor_allocated data actions api ro blk ui h :
  nullish data = false →
  ∃ self, constructor data actions api ro blk ui h = Ok self ∧
    allocated self.
Proof.
  intros Hd. rewrite constructor_run.
  set (self0 := {| api := api; store := _ |}).
  destruct (set_data_effects data self0 Hd)
    as (self1 & self' & _ & Hrun & Hdata & Hstore & _).
  rewrite Hrun. exists self'. split; [done|]. unfold allocated.
  rewrite Hstore, Hdata. apply allocated_set_prop.
Qed.

(** X12: in every state reached from construction by any operations, with
    whatever responses and file data, the tool still uses the record it
    allocated at construction, that record exists, and the log of calls
    has only grown. *)
Theorem record_survives_every_run (data : value)
    (actions : option (list Tune.t)) (api : Api) (ro : bool) (blk : BlockAPI)
    (ui : Ui) (h : gmap loc (gmap string value)) :
  nullish data = false →
  ∃ self, constructor data actions api ro blk ui h = Ok self ∧
    ∀ ops, allocated (run ops self) ∧
           _data (run ops self) = _data self ∧
           ∃ more, calls (run ops self) = calls self ++ more.
Proof.
  intros Hd.
  destruct (constructor_allocated data actions api ro blk ui h Hd)
    as (self & Hrun & Ha).
  exists self. split; [done|]. intros ops. clear Hrun. revert self Ha.
  induction ops as [|o ops IH]; intros self Ha.
  - split; [done|]. split; [done|]. exists []. by rewrite app_nil_r.
  - destruct (exec_keeps_record o self Ha) as (Ha' & Hd' & more & Hc).
    destruct (IH _ Ha') as (Ha'' & Hd'' & more' & Hc').
    change (run (o :: ops) self) with (run ops (exec o self)).
    split; [done|]. split; [by rewrite Hd''|].
    exists (more ++ more'). by rewrite Hc', Hc, app_assoc.
Qed.

Lemma record_survives_every_run_witness :
  nullish (VRef 3) = false ∧
  ∃ self, constructor (VRef 3) None sample_api false accepting_block
            sample_ui sample_store = Ok self ∧
    allocated (run [host_onUpload VUndefined; host_tuneToggled "file";
                    host_save] self).
Proof.
  split; [reflexivity|].
  destruct (record_survives_every_run (VRef 3) None sample_api false
              accepting_block sample_ui sample_store eq_refl)
    as (self & H1 & H2).
  exists self. split; [exact H1|]. apply H2.
Defined.

(** *** A populated block stays populated *)

Lemma member_new_object h obj o k :
  member h o k ≠ VUndefined →
  member (<[fresh (dom h) := obj]> h) o k = member h o k.
Proof.
  destruct o as [| | | | |l]; try done. unfold member, deref.
  destruct (decide (l = fresh (dom h))) as [->|Hl].
  - rewrite lookup_fresh_None. simpl. by rewrite lookup_empty.
  - by rewrite lookup_insert_ne.
Qed.

Lemma truthy_defined v : truthy v = true → v ≠ VUndefined.
Proof. by intros H ->. Qed.

Lemma file_url_set_prop self k v h' :
  k ≠ "file" → k ≠ "url" →
  h' = set_prop (store self) (_data self) k v →
  member h' (VRef (_data self)) "file" = data_field self "file" ∧
  member h' (data_field self "file") "url" = file_url self.
Proof.
  intros Hk1 Hk2 ->. unfold file_url, data_field.
  by rewrite !member_set_prop_ne.
Qed.

(** An operation that sets no file leaves the file field of a populated
    block and its url as they are. *)
Lemma exec_keeps_file o self :
  truthy (file_url self) = true → sets_no_file o self →
  data_field (exec o self) "file" = data_field self "file" ∧
  file_url (exec o self) = file_url self.
Proof.
  intros Hurl Hok.
  assert (Hsame : ∀ self', store self' = store self →
            _data self' = _data self →
            data_field self' "file" = data_field self "file" ∧
            file_url self' = file_url self).
  { intros self' Hs Hd. unfold file_url, data_field. by rewrite Hs, Hd. }
  assert (Hwrite : ∀ self' k v, k ≠ "file" → k ≠ "url" →
            store self' = set_prop (store self) (_data self) k v →
            _data self' = _data self →
            data_field self' "file" = data_field self "file" ∧
            file_url self' = file_url self).
  { intros self' k v Hk1 Hk2 Hs Hd.
    destruct (file_url_set_prop self k v _ Hk1 Hk2 Hs) as [H1 H2].
    unfold file_url, data_field in *. rewrite Hd. by rewrite H1, H2. }
  destruct o as [obj|response|file|error| |tuneName|]; cbn [sets_no_file] in Hok.
  - rewrite exec_object.
    assert (Hfile : truthy (data_field self "file") = true).
    { unfold file_url in Hurl. by destruct (data_field self "file"). }
    unfold file_url, data_field in *. simpl.
    rewrite (member_new_object _ _ (VRef (_data self)))
      by by apply truthy_defined.
    split; [done|]. apply member_new_object. by apply truthy_defined.
  - rewrite exec_onUpload, Hok. destruct (_ || _); by apply Hsame.
  - done.
  - unfold exec. cbn [step]. rewrite uploadingFailed_run. by apply Hsame.
  - rewrite exec_save. by eapply (Hwrite _ "caption").
  - destruct Hok as [Hk1 Hk2]. rewrite exec_tuneToggled.
    by eapply (Hwrite _ tuneName).
  - rewrite exec_microtask.
    destruct (microtasks self) as [|[status|err] q]; by apply Hsame.
Qed.

(** X13: once the file field has a truthy url, it keeps that file and
    that url through any run of operations that set no file: failed or
    thrown uploads, errors, saves, tune toggles, promise reactions and
    objects built by the host. *)
Theorem populated_block_stays_populated (ops : list op) (self : tool) :
  truthy (file_url self) = true → none_sets_file ops self →
  data_field (run ops self) "file" = data_field self "file" ∧
  file_url (run ops self) = file_url self.
Proof.
  revert self. induction ops as [|o ops IH]; intros self Hurl Hops; [done|].
  destruct Hops as [Ho Hops].
  destruct (exec_keeps_file o self Hurl Ho) as [H1 H2].
  change (run (o :: ops) self) with (run ops (exec o self)).
  destruct (IH (exec o self)) as [H3 H4]; [by rewrite H2|done|].
  by rewrite H3, H4, H1, H2.
Qed.

Lemma populated_block_stays_populated_witness :
  truthy (file_url (exec (host_onUpload (VRef 7)) sample_tool)) = true ∧
  none_sets_file [host_onUpload (VRef 8); host_save; host_microtask]
    (exec (host_onUpload (VRef 7)) sample_tool) ∧
  file_url (run [host_onUpload (VRef 8); host_save; host_microtask]
              (exec (host_onUpload (VRef 7)) sample_tool))
    = VStr "http://x/v.mp4".
Proof.
  assert (H1 : truthy (file_url (exec (host_onUpload (VRef 7)) sample_tool))
               = true) by (vm_compute; reflexivity).
  assert (H2 : none_sets_file
                 [host_onUpload (VRef 8); host_save; host_microtask]
                 (exec (host_onUpload (VRef 7)) sample_tool)).
  { split; [vm_compute; reflexivity|]. split; [exact I|]. split; exact I. }
  split; [exact H1|]. split; [exact H2|].
  destruct (populated_block_stays_populated _ _ H1 H2) as [_ H3].
  rewrite H3. vm_compute. reflexivity.
Defined.

(** *** The microtask queue runs dry *)

Lemma drain_succ n self :
  drain (S n) self = drain n (exec host_microtask self).
Proof. unfold drain. by rewrite Nat.iter_succ_r. Qed.

Lemma queue_weight_app q1 q2 :
  queue_weight (q1 ++ q2) = queue_weight q1 + queue_weight q2.
Proof. induction q1 as [|j q1 IH]; simpl; [done|]. rewrite IH. lia. Qed.

Lemma drain_within n self :
  (queue_weight (microtasks self) ≤ n)%nat →
  microtasks (drain n self) = [] ∧
  store (drain n self) = store self ∧
  _data (drain n self) = _data self ∧
  count is_notification (calls (drain n self))
    = count is_notification (calls self).
Proof.
  revert self. induction n as [|n IH]; intros self Hw.
  - destruct (microtasks self) as [|[status|err] q] eqn:Hq; simpl in Hw;
      [done|lia|lia].
  - rewrite drain_succ.
    assert (Hstep : (queue_weight (microtasks (exec host_microtask self))
                     ≤ n)%nat ∧
              store (exec host_microtask self) = store self ∧
              _data (exec host_microtask self) = _data self ∧
              count is_notification (calls (exec host_microtask self))
                = count is_notification (calls self)).
    { rewrite exec_microtask.
      destruct (microtasks self) as [|[status|err] q] eqn:Hq; simpl in *.
      - rewrite Hq. simpl. repeat split. lia.
      - rewrite queue_weight_app, count_app.
        destruct (stretched_set (block self) status); simpl;
          repeat split; lia.
      - rewrite count_app. simpl. repeat split; lia. }
    destruct Hstep as (Hw' & Hs & Hd & Hc).
    destruct (IH _ Hw') as (H1 & H2 & H3 & H4).
    by rewrite H1, H2, H3, H4, Hs, Hd, Hc.
Qed.

Lemma queue_weight_bound q : (queue_weight q ≤ 2 * length q)%nat.
Proof. induction q as [|[status|err] q IH]; simpl; lia. Qed.

(** X14: whatever is queued, the microtask queue is empty after a number
    of steps that is at most twice its length (two for every pending
    assignment to the block, one for every pending error report); running
    it changes nothing in the store and shows no notification. *)
Theorem microtask_queue_runs_dry (self : tool) :
  let n := queue_weight (microtasks self) in
  (n ≤ 2 * length (microtasks self))%nat ∧
  microtasks (drain n self) = [] ∧
  store (drain n self) = store self ∧
  _data (drain n self) = _data self ∧
  count is_notification (calls (drain n self))
    = count is_notification (calls self).
Proof.
  intros n. split; [apply queue_weight_bound|by apply drain_within].
Qed.

(** *** Paste routing touches nothing but the collaborators *)

(** X15: a paste event that is handled without throwing leaves the store,
    the record and the microtask queue as they were: all it does is add at
    most two calls to the log (a fetch, together with the reading of its
    blob, counts as one), none of them a notification. *)
Theorem onPaste_only_calls (blob_of : value → option value) (event : value)
    (self self' : tool) :
  onPaste blob_of event self = Ok ((), self') →
  store self' = store self ∧ _data self' = _data self ∧
  microtasks self' = microtasks self ∧
  ∃ more, calls self' = calls self ++ more ∧ (length more ≤ 2)%nat ∧
          count is_notification more = 0.
Proof.
  intros H.
  unfold onPaste, mbind, M_bind, read, get_prop, to_string, uploadUrl,
    uploadFile, perform, throw, mret, M_ret in H.
  repeat (match type of H with
          | context [if ?c then _ else _] => destruct c eqn:?
          | context [match blob_of ?x with _ => _ end] => destruct (blob_of x)
          | context [match ToString ?h ?x with _ => _ end] =>
              destruct (ToString h x)
          end; simpl in H; try discriminate).
  all: injection H as <-; simpl; repeat split.
  all: try (eexists; split; [by rewrite <- ?app_assoc|]; simpl; split;
            [lia|reflexivity]).
  exists []. rewrite app_nil_r. simpl. split; [done|]. split; [lia|done].
Qed.

Lemma onPaste_only_calls_witness :
  onPaste (λ _, Some (VRef 2)) (VRef 9) sample_tool =
    Ok ((), with_calls [window_fetch (VStr "blob:http://x/1");
                        uploader_uploadByFile (VRef 2)] sample_tool) ∧
  store (with_calls [window_fetch (VStr "blob:http://x/1");
                     uploader_uploadByFile (VRef 2)] sample_tool)
    = store sample_tool.
Proof.
  assert (H : onPaste (λ _, Some (VRef 2)) (VRef 9) sample_tool =
              Ok ((), with_calls [window_fetch (VStr "blob:http://x/1");
                                  uploader_uploadByFile (VRef 2)]
                        sample_tool)) by (vm_compute; reflexivity).
  split; [exact H|].
  exact (proj1 (onPaste_only_calls _ _ _ _ H)).
Defined.

(** X16: [onPaste] fails with a TypeError (the promise it returns is
    rejected with it), and so uploads nothing, when the event is undefined
    or null, when a tag, pattern or file event has no detail, and when a
    tag event has a detail without data. *)
Theorem onPaste_throws_without_payload (blob_of : value → option value)
    (event : value) (self : tool) :
  let h := store self in
  let type := member h event "type" in
  let detail := member h event "detail" in
  nullish event = true ∨
  ((type = VStr "tag" ∨ type = VStr "pattern" ∨ type = VStr "file") ∧
   nullish detail = true) ∨
  (type = VStr "tag" ∧ nullish (member h detail "data") = true) →
  onPaste blob_of event self = Throw TypeError.
Proof.
  intros h type detail Hcase. subst h type detail.
  unfold onPaste, mbind, M_bind, read, get_prop.
  destruct (nullish event) eqn:Hev; [done|].
  destruct Hcase as [H|[[Htype Hdetail]|[Htype Hdata]]]; [done| |].
  - destruct Htype as [Htype|[Htype|Htype]]; rewrite Htype.
    + rewrite strict_eq_refl. by rewrite Hdetail.
    + rewrite strict_eq_ne by done. rewrite strict_eq_refl.
      by rewrite Hdetail.
    + rewrite !strict_eq_ne by done. rewrite strict_eq_refl.
      by rewrite Hdetail.
  - rewrite Htype, strict_eq_refl.
    destruct (nullish (member (store self) event "detail")); [done|].
    by rewrite Hdata.
Qed.

Lemma onPaste_throws_without_payload_witness :
  nullish VUndefined = true ∧
  onPaste (λ _, None) VUndefined sample_tool = Throw TypeError.
Proof.
  split; [reflexivity|].
  apply (onPaste_throws_without_payload (λ _, None) VUndefined sample_tool).
  left. reflexivity.
Defined.

(** *** More on the URL pattern *)

(** X17: the URL pattern has no start anchor: whatever is put in front of
    a string it matches, it matches the longer string too. *)
Theorem video_pattern_ignores_what_precedes (before s : string) :
  RegExp.test video_pattern s = true →
  RegExp.test video_pattern (before +:+ s) = true.
Proof.
  unfold RegExp.test. rewrite !video_pattern_matches, units_app.
  intros (before' & scheme & rest & ext & query & -> & H).
  exists (RegExp.units before ++ before'), scheme, rest, ext, query.
  split; [by rewrite app_assoc|done].
Qed.

Lemma video_pattern_ignores_what_precedes_witness :
  RegExp.test video_pattern "http://x/v.mp4" = true ∧
  RegExp.test video_pattern ("javascript:" +:+ "http://x/v.mp4") = true.
Proof.
  assert (H : RegExp.test video_pattern "http://x/v.mp4" = true)
    by (vm_compute; reflexivity).
  split; [exact H|].
  exact (video_pattern_ignores_what_precedes "javascript:" _ H).
Defined.

Section CaseBlind.
Import RegExp RegExpFacts.

Lemma to_lower_twice x : to_lower (to_lower x) = to_lower x.
Proof.
  revert x. cut (∀ x, N.eqb (to_lower (to_lower x)) (to_lower x) = true).
  { intros H x. by apply N.eqb_eq. }
  apply every_code_unit; [vm_compute; reflexivity|].
  intros x Hx. rewrite !(to_lower_big x Hx). apply N.eqb_refl.
Qed.

Lemma to_upper_lower x : to_upper (to_lower x) = to_upper x.
Proof.
  revert x. cut (∀ x, N.eqb (to_upper (to_lower x)) (to_upper x) = true).
  { intros H x. by apply N.eqb_eq. }
  apply every_code_unit; [vm_compute; reflexivity|].
  intros x Hx. rewrite !(to_lower_big x Hx). apply N.eqb_refl.
Qed.

Lemma fmap_concat_inv {A B} (f : A → B) (w : list A) (ws : list (list B)) :
  fmap (M:=list) f w = concat ws →
  ∃ ws' : list (list A),
    w = concat ws' ∧ ws = fmap (M:=list) (fmap (M:=list) f) ws'.
Proof.
  revert w. induction ws as [|u ws IH]; intros w Hw; simpl in Hw.
  - apply fmap_nil_inv in Hw. subst. by exists [].
  - apply fmap_app_inv in Hw as (u' & v' & -> & Hv & ->).
    destruct (IH v' (eq_sym Hv)) as (ws' & -> & ->). by exists (u' :: ws').
Qed.

Lemma lang_lower r w :
  case_blind r → lang r (to_lower <$> w) ↔ lang r w.
Proof.
  revert w.
  induction r as [| |cs|r1 IH1 r2 IH2|r1 IH1 r2 IH2|r1 IH]; intros w Hr.
  - done.
  - simpl. split; [apply fmap_nil_inv|by intros ->].
  - simpl in *. split.
    + intros (x & Hw & Hx). destruct w as [|y [|z w]]; try done.
      injection Hw as <-. exists y. by rewrite <- Hr.
    + intros (x & -> & Hx). exists (to_lower x). by rewrite Hr.
  - destruct Hr as [Hr1 Hr2]. simpl. split.
    + intros (u & v & Hw & Hu & Hv).
      apply fmap_app_inv in Hw as (u' & v' & -> & -> & ->).
      exists u', v'. split; [done|]. split; [by apply IH1|by apply IH2].
    + intros (u & v & -> & Hu & Hv). exists (to_lower <$> u), (to_lower <$> v).
      rewrite fmap_app. split; [done|]. split; [by apply IH1|by apply IH2].
  - destruct Hr as [Hr1 Hr2]. simpl. by rewrite IH1, IH2.
  - simpl in Hr. simpl. split.
    + intros (ws & Hw & Hall).
      apply fmap_concat_inv in Hw as (ws' & -> & ->).
      exists ws'. split; [done|]. rewrite Forall_fmap in Hall.
      eapply Forall_impl; [exact Hall|]. intros u Hu. simpl in Hu.
      by apply IH.
    + intros (ws & -> & Hall).
      exists (fmap (M:=list) (fmap (M:=list) to_lower) ws). split.
      * clear. induction ws as [|u ws IH]; simpl; [done|].
        by rewrite fmap_app, IH.
      * rewrite Forall_fmap. eapply Forall_impl; [exact Hall|].
        intros u Hu. simpl. by apply IH.
Qed.

Lemma ignore_case_blind r : case_blind (ignore_case r).
Proof.
  induction r as [| |cs|r1 IH1 r2 IH2|r1 IH1 r2 IH2|r1 IH]; simpl; try done.
  intros x. by rewrite to_lower_twice, to_upper_lower.
Qed.

(** Under the [i] flag a pattern gives the same answer on a sequence of
    code units and on the sequence with its ASCII letters in lower case. *)
Lemma matches_ignores_case rx w :
  ignoreCase rx = true → matches rx (ascii_lower w) = matches rx w.
Proof.
  intros Hi.
  assert (Hblind : case_blind (search rx)).
  { unfold search, effective. rewrite Hi. simpl.
    split; [by destruct (caret rx)|]. split; [apply ignore_case_blind|].
    by destruct (dollar rx). }
  assert (H : matches rx (ascii_lower w) = true ↔ matches rx w = true).
  { unfold matches, ascii_lower. rewrite !accepts_spec. by apply lang_lower. }
  destruct (matches rx (ascii_lower w)), (matches rx w); try done.
  - symmetry. by apply H.
  - by apply H.
Qed.

End CaseBlind.

(** X18: the URL pattern does not look at the case of ASCII letters
    anywhere: on every string, taken as its sequence of UTF-16 code
    units, it gives the same answer as on the string with each of the
    letters A to Z replaced by its lower-case form (and every other code
    unit, letters outside ASCII among them, left as it is). *)
Theorem video_pattern_ignores_case (w : list N) :
  RegExp.matches video_pattern (ascii_lower w) = RegExp.matches video_pattern w.
Proof. by apply matches_ignores_case. Qed.

(** *** The settings menu right after construction *)

(** [set data] leaves the configuration of the tool as it is. *)
Lemma set_data_config data self :
  nullish data = false →
  ∃ self', set_data data self = Ok ((), self') ∧
    config_actions self' = config_actions self ∧ api self' = api self.
Proof.
  intros Hd. unfold set_data. unfold mbind at 1. unfold M_bind at 1.
  unfold read at 1. rewrite (get_prop_object _ _ _ Hd).
  unfold mbind at 1. unfold M_bind at 1. rewrite set_video_run.
  set (self1 := if truthy _ then _ else _).
  assert (H1 : config_actions self1 = config_actions self ∧
               api self1 = api self).
  { unfold self1. destruct (truthy (member (store self) data "file"));
      simpl; [|done]. by destruct (truthy _). }
  clearbody self1.
  unfold mbind at 1. unfold M_bind at 1. unfold this at 1.
  unfold mbind at 1. unfold M_bind at 1. unfold read at 1.
  rewrite (get_prop_object _ _ _ Hd).
  unfold mbind at 1. unfold M_bind at 1. unfold write at 1.
  unfold mbind at 1. unfold M_bind at 1. unfold read at 1.
  rewrite get_prop_object by done.
  unfold mbind at 1. unfold M_bind at 1. unfold perform at 1.
  unfold tunes. cbn [forEach]. unfold mbind, M_bind.
  rewrite (set_data_tune_run _ _ _ Hd), setTune_run. cbn [Tune.name].
  rewrite (set_data_tune_run _ _ _ Hd), setTune_run. cbn [Tune.name].
  rewrite (set_data_tune_run _ _ _ Hd), setTune_run. cbn [Tune.name].
  eexists. split; [reflexivity|]. simpl. exact H1.
Qed.

(** X19: in the menu rendered right after construction from any record,
    every registry tune is shown with the boolean restored from the input
    (true exactly for the boolean true and the string "true"), and every
    configured action whose name is not a field of the record, nor one
    that every object inherits from [Object.prototype], is shown with an
    undefined active state. *)
Theorem renderSettings_after_construction (data : value)
    (actions : option (list Tune.t)) (api : Api) (ro : bool) (blk : BlockAPI)
    (ui : Ui) (h : gmap loc (gmap string value)) :
  nullish data = false →
  ∃ self settings,
    constructor data actions api ro blk ui h = Ok self ∧
    renderSettings self = Ok (settings, self) ∧
    Setting.name <$> settings = registry_names ++ action_names actions ∧
    Forall (λ s,
      (Setting.name s ∈ registry_names →
       Setting.isActive s = VBool (coerce (member h data (Setting.name s)))) ∧
      (Setting.name s ∉ "file" :: "caption" :: registry_names →
       Setting.name s ∉ inherited_names →
       Setting.isActive s = VUndefined)) settings.
Proof.
  intros Hd. rewrite constructor_run.
  set (self0 := {| api := api; store := _ |}).
  destruct (set_data_run data self0 Hd)
    as (self1 & self' & Hvideo & Hrun & Hdata & Hin & Hout & _).
  destruct (set_data_config data self0 Hd) as (self'' & Hrun' & Hcfg & _).
  rewrite Hrun in Hrun'. injection Hrun' as <-.
  rewrite Hrun. exists self'. rewrite renderSettings_run. eexists.
  split; [reflexivity|]. split; [reflexivity|]. split.
  - rewrite <- list_fmap_compose, fmap_app, Hcfg. done.
  - apply Forall_fmap, Forall_true. intros tune. simpl. split.
    + intros Hn. rewrite (Hin _ Hn). f_equal. f_equal.
      apply member_new_empty.
    + intros Hn _. apply not_elem_of_cons in Hn as [Hfile Hn].
      destruct (set_video_frame (member (store self0) data "file") self0)
        as (self1' & Hvideo' & _ & Hframe).
      rewrite Hvideo in Hvideo'. injection Hvideo' as <-.
      unfold data_field. rewrite Hdata, (Hout _ _ Hn), (Hframe _ _ Hfile).
      unfold member, deref. simpl. rewrite lookup_insert_eq. simpl.
      by rewrite lookup_empty.
Qed.

Lemma renderSettings_after_construction_witness :
  nullish (VRef 3) = false ∧
  ∃ self settings,
    constructor (VRef 3) (Some [mirrored_tune]) sample_api false
      accepting_block sample_ui sample_store = Ok self ∧
    renderSettings self = Ok (settings, self) ∧
    Setting.name <$> settings =
      ["withBorder"; "stretched"; "withBackground"; "mirrored"].
Proof.
  split; [reflexivity|].
  destruct (renderSettings_after_construction (VRef 3) (Some [mirrored_tune])
              sample_api false accepting_block sample_ui sample_store eq_refl)
    as (self & settings & H1 & H2 & H3 & _).
  exists self, settings. split; [exact H1|]. split; [exact H2|exact H3].
Defined.
